(** * Verification of the clang target-triple prober and its crash analyzer

    The development embeds three programs of the repository:
    - [try_triples.py]: the triple generator, the probe classification and
      the bounded scheduler of [main];
    - [analyze_results.py]: the grouping of crash records by stack trace;
    - the pair [print(err)] / [literal_eval] that writes and reads one
      diagnostic line of the results log.

    Python [str] values that only hold catalog text are Rocq [string]s;
    [bytes] are [list byte]; text read back from the log is a list of code
    points, because [str.splitlines] looks at characters beyond one byte. *)

From Stdlib Require Import List String Ascii Bool Arith NArith ZArith Lia.
From Stdlib.Strings Require Import Byte.
From Stdlib Require Import Permutation.
From Stdlib Require Import DecimalString.
Import ListNotations.

(** * The triple generator ([generate_triples]) *)

Module Triples.

Local Open Scope string_scope.

(** The four enumerations, as [list(map(lambda x: x.value, Enum))] yields
    them: member values in declaration order (no two members of an
    enumeration share a value, so none is an alias). *)

Definition ClangArch : list string :=
  ["i386"; "i486"; "i586"; "i686"; "i786"; "i886"; "i986"; "amd64";
   "x86_64"; "x86_64h"; "powerpc"; "powerpcspe"; "ppc"; "ppc32";
   "powerpcle"; "ppcle"; "ppc32le"; "powerpc64"; "ppu"; "ppc64";
   "powerpc64le"; "ppc64le"; "xscale"; "xscaleeb"; "aarch64";
   "aarch64_be"; "aarch64_32"; "arc"; "arm64"; "arm64_32"; "arm64e";
   "arm"; "armeb"; "thumb"; "thumbeb"; "avr"; "m68k"; "msp430"; "mips";
   "mipseb"; "mipsallegrex"; "mipsisa32r6"; "mipsr6"; "mipsel";
   "mipsallegrexel"; "mipsisa32r6el"; "mipsr6el,"; "mips64"; "mips64eb";
   "mipsn32"; "mipsisa64r6,"; "mips64r6"; "mipsn32r6"; "mips64el";
   "mipsn32el"; "mipsisa64r6el"; "mips64r6el,"; "mipsn32r6el"; "r600";
   "amdgcn"; "riscv32"; "riscv64"; "hexagon"; "s390x"; "systemz"; "sparc";
   "sparcel"; "sparcv9"; "sparc64"; "tce"; "tcele"; "xcore"; "nvptx";
   "nvptx64"; "le32"; "le64"; "amdil"; "amdil64"; "hsail"; "hsail64";
   "spir"; "spir64"; "spirv32"; "spirv32v1.0"; "spirv32v1.1";
   "spirv32v1.2,"; "spirv32v1.3"; "spirv32v1.4"; "spirv32v1.5"; "spirv64";
   "spirv64v1.0"; "spirv64v1.1"; "spirv64v1.2,"; "spirv64v1.3";
   "spirv64v1.4"; "spirv64v1.5"; "lanai"; "renderscript32";
   "renderscript64"; "shave"; "ve"; "wasm32"; "wasm64"; "csky";
   "loongarch32"; "loongarch64"; "dxil"; ""].

Definition ClangVendor : list string :=
  ["apple"; "pc"; "scei"; "sie"; "fsl"; "ibm"; "img"; "mti"; "nvidia";
   "csr"; "myriad"; "amd"; "mesa"; "suse"; "oe"; ""].

Definition ClangOS : list string :=
  ["ananas"; "cloudabi"; "darwin"; "dragonfly"; "freebsd"; "fuchsia";
   "ios"; "kfreebsd"; "linux"; "lv2"; "macos"; "netbsd"; "openbsd";
   "solaris"; "win32"; "windows"; "zos"; "haiku"; "minix"; "rtems";
   "nacl"; "aix"; "cuda"; "nvcl"; "amdhsa"; "ps4"; "ps5"; "elfiamcu";
   "tvos"; "watchos"; "driverkit"; "mesa3d"; "contiki"; "amdpal";
   "hermit"; "hurd"; "wasi"; "emscripten"; "shadermodel"; ""].

Definition ClangEnvironment : list string :=
  ["eabihf"; "eabi"; "gnuabin32"; "gnuabi64"; "gnueabihf"; "gnueabi";
   "gnux32"; "gnu_ilp32"; "code16"; "gnu"; "android"; "musleabihf";
   "musleabi"; "muslx32"; "musl"; "msvc"; "itanium"; "cygnus"; "coreclr";
   "simulator"; "macabi"; "pixel"; "vertex"; "geometry"; "hull"; "domain";
   "compute"; "library"; "raygeneration"; "intersection"; "anyhit";
   "closesthit"; "miss"; "callable"; "mesh"; "amplification"; ""].

Definition archs : list string := ClangArch.
Definition vendors : list string := ClangVendor.
Definition oses : list string := ClangOS.
Definition envs : list string := ClangEnvironment.

(** Python truthiness of a [str]: non-empty. *)
Definition truthy (s : string) : bool :=
  match s with EmptyString => false | String _ _ => true end.

(** The body of the [for] loop of [generate_triples]: the value it yields
    for one element [(arch, vendor, op_s, environ)] of the product. *)
Definition triple_of (arch vendor op_s environ : string) : string :=
  let triple := "" in
  let triple := if truthy arch then triple ++ arch else triple in
  let triple :=
    if truthy vendor
    then triple ++ ((if truthy triple then "-" else "") ++ vendor)
    else triple in
  let triple :=
    if truthy op_s
    then triple ++ ((if truthy triple then "-" else "") ++ op_s)
    else triple in
  let triple :=
    if truthy environ
    then triple ++ ((if truthy triple then "-" else "") ++ environ)
    else triple in
  triple.

(** [itertools.product] of four lists: the last varies fastest. *)
Definition product4 {A} (l1 l2 l3 l4 : list A) : list (A * A * A * A) :=
  flat_map (fun a =>
    flat_map (fun b =>
      flat_map (fun c =>
        map (fun d => (a, b, c, d)) l4) l3) l2) l1.

Definition generate_from (l1 l2 l3 l4 : list string) : list string :=
  map (fun '(arch, vendor, op_s, environ) => triple_of arch vendor op_s environ)
      (product4 l1 l2 l3 l4).

Definition generate_triples : list string :=
  generate_from archs vendors oses envs.

(** The separator, and two tests on assembled text: whether the separator
    occurs at all, and whether every separator stands between two other
    characters ([after_sep] tells that the text so far is empty or ends
    with a separator). *)
Definition SEP : ascii := "-"%char.

Fixpoint has_sep (s : string) : bool :=
  match s with
  | EmptyString => false
  | String c r => Ascii.eqb c SEP || has_sep r
  end.

Fixpoint well_separated (after_sep : bool) (s : string) : bool :=
  match s with
  | EmptyString => negb after_sep
  | String c r =>
      if Ascii.eqb c SEP then negb after_sep && well_separated true r
      else well_separated false r
  end.

(** ** Reading a triple back *)

(** [t.split("-")] *)
Fixpoint split_sep (s : string) : list string :=
  match s with
  | EmptyString => [EmptyString]
  | String c r =>
      if Ascii.eqb c SEP then EmptyString :: split_sep r
      else
        match split_sep r with
        | p :: ps => String c p :: ps
        | [] => [String c EmptyString]
        end
  end.

Definition mem (x : string) (l : list string) : bool :=
  existsb (String.eqb x) l.

(** The number of the axis in whose catalog a value is found. *)
Definition axis_of (x : string) : nat :=
  if mem x archs then 0
  else if mem x vendors then 1
  else if mem x oses then 2
  else 3.

(** Among the parts of a triple, the one of axis [k], absent when there is
    none. *)
Definition pick (axis : string -> nat) (k : nat) (parts : list string)
  : string :=
  hd "" (filter (fun p => Nat.eqb (axis p) k) parts).

(** The four values a triple was assembled from. *)
Definition decode (t : string) : string * string * string * string :=
  let parts := filter truthy (split_sep t) in
  (pick axis_of 0 parts, pick axis_of 1 parts,
   pick axis_of 2 parts, pick axis_of 3 parts).

End Triples.

(** * The probe ([check_valid_triple]) *)

Module Probe.

Definition bytes := list byte.

(** A bytes literal of the source, written as a Rocq string. *)
Definition b (s : string) : bytes := list_byte_of_string s.

(** [hay.startswith(needle)] *)
Fixpoint starts_with (needle hay : bytes) : bool :=
  match needle, hay with
  | [], _ => true
  | _ :: _, [] => false
  | x :: needle', y :: hay' => Byte.eqb x y && starts_with needle' hay'
  end.

(** [needle in hay] for two bytes objects: [needle] occurs as a contiguous
    slice at some offset of [hay]. *)
Fixpoint bytes_in (needle hay : bytes) : bool :=
  starts_with needle hay
  || match hay with
     | [] => false
     | _ :: hay' => bytes_in needle hay'
     end.

(** What the child process leaves to the caller once both pipes reach end of
    file: the two drained streams and [res.returncode], which is [None] until
    the exit status has been collected (the code reads it without awaiting
    [res.wait()]). *)
Record completed : Type := Completed {
  stdout : bytes;
  stderr : bytes;
  returncode : option Z
}.

(** The second component of the returned tuple is [out + err], a bytes
    object, or the empty [str] literal. *)
Inductive payload : Type :=
| PBytes (data : bytes)
| PStr (s : string).

Definition sentinel : bytes := b "PLEASE".

(** [res.returncode == 0] *)
Definition returncode_is_zero (rc : option Z) : bool :=
  match rc with
  | Some z => Z.eqb z 0
  | None => false
  end.

(** The classification at the end of [check_valid_triple]. *)
Definition check_valid_triple (res : completed) : bool * payload :=
  let out := stdout res in
  let err := stderr res in
  if bytes_in sentinel out || bytes_in sentinel err
  then (false, PBytes (out ++ err))
  else (returncode_is_zero (returncode res), PStr "").

(** Python truthiness of the second component ([if err:] in [check_triple]). *)
Definition payload_truthy (p : payload) : bool :=
  match p with
  | PBytes [] => false
  | PBytes (_ :: _) => true
  | PStr s => Triples.truthy s
  end.

(** The three outcomes of the specification, read off the returned tuple the
    way [check_triple] consumes it: a truthy second component is a crash
    report, otherwise the boolean tells valid from invalid. *)
Inductive outcome : Type :=
| Valid
| Invalid
| Crashed (diagnostic : bytes).

Definition payload_bytes (p : payload) : bytes :=
  match p with
  | PBytes data => data
  | PStr s => list_byte_of_string s
  end.

Definition outcome_of (r : bool * payload) : outcome :=
  let (valid, err) := r in
  if payload_truthy err then Crashed (payload_bytes err)
  else if valid then Valid
  else Invalid.

Definition classify (res : completed) : outcome :=
  outcome_of (check_valid_triple res).

(** ** Draining a pipe *)

(** [read_stream]: [reads] holds what the successive [stream.read(1024)]
    return; a stream at end of file returns the empty bytes object, as it
    does once [reads] is used up. [out] is the variable of the loop. *)
Fixpoint read_stream_from (out : bytes) (reads : list bytes) : bytes :=
  match reads with
  | [] => out
  | data :: reads' =>
      match data with
      | [] => out
      | _ :: _ => read_stream_from (out ++ data) reads'
      end
  end.

Definition read_stream (reads : list bytes) : bytes :=
  read_stream_from [] reads.

End Probe.

(** * The scheduler and the temporary file ([main] of [try_triples.py]) *)

Module Scheduler.

Local Open Scope string_scope.

(** A task made by [create_task(check_triple(triple, i))]: [tid] numbers
    the tasks in creation order and stands for the identity of the Task
    object, [seen] is the value of [i] the coroutine was given. *)
Record task : Type := Task {
  tid : nat;
  triple : string;
  seen : nat
}.

Inductive exn : Type :=
| ValueError_empty_set            (* wait() called on an empty set *)
| SpawnError (t : task)           (* create_subprocess_exec failed in t *)
| FileNotFoundError (path : string).

(** What the controller does, in order: a task is created, or a wait
    returns and tells which tasks have finished. *)
Inductive event : Type :=
| Launch (t : task)
| Done (t : task).

(** The local variables of [main], with the history of events (newest
    first). The set [tasks] is a list without repetition; between two waits
    nothing but [main] touches it: the coroutine does not suspend outside
    [wait], so no done-callback runs in between. The callbacks that run
    during a wait of the loop act on a set that is rebound
    ([done, tasks = ...]) when the wait returns; those that run during the
    last wait are accounted for in [drain]. *)
Record state : Type := State {
  tasks : list task;
  i : nat;
  l : nat;
  created : nat;
  trace : list event
}.

Inductive result (A : Type) : Type :=
| Ok (a : A)
| Raise (e : exn) (st : state)
| OutOfFuel.
Arguments Ok {A} a.
Arguments Raise {A} e st.
Arguments OutOfFuel {A}.

(** One answer of the event loop to [wait(tasks, return_when=FIRST_COMPLETED)]:
    the position (in the set, modulo its size) of the task whose completion
    releases the waiter, and for every task number whether that task is
    found done as well when the wait resumes. Every split of a non-empty
    set into a non-empty [done] and the rest is the answer of some
    [completion]. That a wait on a non-empty set returns at all is taken
    for granted: a task ends when its child process cannot be spawned or
    when the child closes its pipes, and every child is taken to do so. *)
Record completion : Type := Completion {
  first : nat;
  also : list bool
}.

Definition is_done (c : completion) (fs : list task) (t : task) : bool :=
  Nat.eqb (tid t) (tid (nth (first c mod List.length fs) fs t))
  || nth (tid t) (also c) false.

(** The pair [(done, pending)] the wait returns. *)
Definition wait_first_completed (c : completion) (fs : list task)
  : list task * list task :=
  partition (is_done c fs) fs.

Section Run.

(** The environment of a run: what the toolchain does on a triple ([None]
    when the child process cannot be spawned, so that the task ends with an
    exception), and the floating-point test [i / l > 1.1] of the progress
    report, kept abstract. *)
Variable toolchain : string -> option Probe.completed.
Variable exceeds : nat -> nat -> bool.

(** [TASK_COUNT] of the source is the instance [cap = 32]. *)
Variable cap : nat.

(** [for task in done: await task; i += 1; if i / l > 1.1: ...; l = i].
    Awaiting a finished task returns its result or raises its exception. *)
Fixpoint collect (done : list task) (st : state) : result state :=
  match done with
  | [] => Ok st
  | t :: done' =>
      match toolchain (triple t) with
      | None => Raise (SpawnError t) st
      | Some _ =>
          let i' := S (i st) in
          let l' := if exceeds i' (l st) then i' else l st in
          collect done' (State (tasks st) i' l' (created st) (trace st))
      end
  end.

(** [while len(tasks) >= TASK_COUNT: done, tasks = await wait(...); ...].
    [fuel] bounds the number of iterations; [S (length tasks)] is enough,
    since every wait retires at least one task. The answers of the event
    loop are consumed from [sched]; when it runs out the first task of the
    set alone is taken as done. *)
Fixpoint make_room (fuel : nat) (sched : list completion) (st : state)
  : result (state * list completion) :=
  if Nat.leb cap (List.length (tasks st)) then
    match tasks st with
    | [] => Raise ValueError_empty_set st
    | _ :: _ =>
        match fuel with
        | O => OutOfFuel
        | S fuel' =>
            let c := hd (Completion 0 []) sched in
            let (done, pending) := wait_first_completed c (tasks st) in
            let st1 := State pending (i st) (l st) (created st)
                             (rev (map Done done) ++ trace st) in
            match collect done st1 with
            | Ok st2 => make_room fuel' (tl sched) st2
            | Raise e st' => Raise e st'
            | OutOfFuel => OutOfFuel
            end
        end
    end
  else Ok (st, sched).

(** [task = create_task(check_triple(triple, i)); ...; tasks.add(task)] *)
Definition launch (tr : string) (st : state) : state :=
  let t := Task (created st) tr (i st) in
  State (t :: tasks st) (i st) (l st) (S (created st)) (Launch t :: trace st).

(** The [async for] loop over the generated triples. *)
Fixpoint feed (triples : list string) (sched : list completion) (st : state)
  : result state :=
  match triples with
  | [] => Ok st
  | tr :: triples' =>
      match make_room (S (List.length (tasks st))) sched st with
      | Ok (st1, sched1) => feed triples' sched1 (launch tr st1)
      | Raise e st' => Raise e st'
      | OutOfFuel => OutOfFuel
      end
  end.

(** The tasks created since the last wait returned, that is since the set
    was last rebound: the done-callback of these, and of no other task, is
    bound to the set that [tasks] names now. *)
Fixpoint created_since_wait (tr : list event) : list task :=
  match tr with
  | Launch t :: tr' => t :: created_since_wait tr'
  | _ => []
  end.

(** What is left in the set once all its tasks are done: the tasks whose
    callback discards them from an earlier set. *)
Definition stale (st : state) : list task :=
  filter (fun t =>
            negb (existsb (fun u => Nat.eqb (tid u) (tid t))
                          (created_since_wait (trace st))))
         (tasks st).

(** [await wait(tasks)]: returns when every task of the set is done (every
    child process that was spawned is taken to end: the code sets no
    timeout, and a child that never closes its pipes would keep this wait
    from returning). The result is dropped, so no exception of a task is
    retrieved. The tasks created since the last rebinding have discarded
    themselves from the set by then. *)
Definition drain (st : state) : result state :=
  match tasks st with
  | [] => Raise ValueError_empty_set st
  | _ :: _ =>
      Ok (State (stale st) (i st) (l st) (created st)
                (rev (map Done (tasks st)) ++ trace st))
  end.

Definition init : state := State [] 0 1 0 [].

(** From [tasks = set()] to the return of the last wait. *)
Definition schedule (triples : list string) (sched : list completion)
  : result state :=
  match feed triples sched init with
  | Ok st => drain st
  | Raise e st' => Raise e st'
  | OutOfFuel => OutOfFuel
  end.

End Run.

(** The events in the order they happened. *)
Definition history (st : state) : list event := rev (trace st).

Definition launched (h : list event) : list task :=
  flat_map (fun e => match e with Launch t => [t] | Done _ => [] end) h.

Definition finished (h : list event) : list task :=
  flat_map (fun e => match e with Done t => [t] | Launch _ => [] end) h.

(** The number of probes outstanding after the events [h]: tasks created
    and not yet seen done. A task is seen done at the latest when the wait
    that reports it returns, so the number counts every probe still
    running. *)
Definition outstanding (h : list event) : nat :=
  List.length (launched h) - List.length (finished h).

(** The events of a run, however it ends. *)
Definition events_of (r : result state) : list event :=
  match r with
  | Ok st => history st
  | Raise _ st => history st
  | OutOfFuel => []
  end.

(** After every prefix of the events no more tasks have finished than were
    created, and at most [cap] are outstanding. *)
Definition never_above (cap : nat) (h : list event) : Prop :=
  forall n,
    List.length (finished (firstn n h)) <= List.length (launched (firstn n h))
    /\ outstanding (firstn n h) <= cap.

(** Every task is created at a moment when fewer than [cap] are
    outstanding. *)
Definition admitted_below (cap : nat) (h : list event) : Prop :=
  forall n t,
    nth_error h n = Some (Launch t) -> outstanding (firstn n h) < cap.

(** What holds of a computation of [main] however it stops: [P] of the
    value it returns, [Q] of the state an exception leaves; the bound on
    the loop is not reached. *)
Definition stops {A : Type} (P : A -> Prop) (Q : state -> Prop)
    (r : result A) : Prop :=
  match r with
  | Ok a => P a
  | Raise _ st => Q st
  | OutOfFuel => False
  end.

(** The invariant of the controller: the bound holds along the history,
    and the set [tasks] holds the tasks created and not yet seen done. *)
Definition bounded (cap : nat) (st : state) : Prop :=
  never_above cap (history st)
  /\ admitted_below cap (history st)
  /\ List.length (launched (history st))
     = List.length (finished (history st)) + List.length (tasks st)
  /\ List.length (tasks st) <= cap.

(** Every task created is in the set [tasks] or was seen done, the tasks
    were created for the triples [consumed], in their order, and are
    numbered in the order of creation. *)
Definition accounted (consumed : list string) (st : state) : Prop :=
  Permutation (finished (history st) ++ tasks st) (launched (history st))
  /\ map triple (launched (history st)) = consumed
  /\ map tid (launched (history st)) = seq 0 (created st).

Definition TASK_COUNT : nat := 32.

(** ** The temporary file *)

(** The file system: the regular files by absolute path, with their text.
    The directory [/dev/shm/test] is taken to exist and to be writable. *)
Definition filesystem := list (string * string).

Definition exists_file (p : string) (fs : filesystem) : bool :=
  existsb (fun e => String.eqb (fst e) p) fs.

Definition remove_file (p : string) (fs : filesystem) : filesystem :=
  filter (fun e => negb (String.eqb (fst e) p)) fs.

(** [Path(p).write_text(text)] for an absolute [p]. *)
Definition write_text (p text : string) (fs : filesystem) : filesystem :=
  (p, text) :: remove_file p fs.

(** [Path(p).name]: the final component, what follows the last slash. *)
Fixpoint name_from (acc p : string) : string :=
  match p with
  | EmptyString => acc
  | String c p' =>
      if Ascii.eqb c "/"%char then name_from "" p'
      else name_from (acc ++ String c "") p'
  end.

Definition path_name (p : string) : string := name_from "" p.

(** How the operating system reads a path given to [unlink]: an absolute
    path as it is, any other below the working directory of the process. *)
Definition resolve (cwd p : string) : string :=
  match p with
  | String "/"%char _ => p
  | _ => if String.eqb cwd "/" then "/" ++ p else cwd ++ "/" ++ p
  end.

(** [os.unlink(p)] *)
Definition unlink (cwd p : string) (fs : filesystem) : option filesystem :=
  let q := resolve cwd p in
  if exists_file q fs then Some (remove_file q fs) else None.

(** How the process ends: [run_until_complete(main())] returns and the
    interpreter exits with code 0, or the exception of [main] propagates and
    the interpreter exits with code 1. *)
Inductive ending : Type :=
| Returned (fs : filesystem) (st : state)
| Uncaught (e : exn) (fs : filesystem) (st : state)
| Unfinished.

Definition exit_code (e : ending) : option Z :=
  match e with
  | Returned _ _ => Some 0%Z
  | Uncaught _ _ _ => Some 1%Z
  | Unfinished => None
  end.

Definition final_fs (e : ending) : option filesystem :=
  match e with
  | Returned fs _ => Some fs
  | Uncaught _ fs _ => Some fs
  | Unfinished => None
  end.

(** The path [f"/dev/shm/test/{uuid1()}.c"]. *)
Definition tempfile_path (uuid : string) : string :=
  "/dev/shm/test/" ++ uuid ++ ".c".

(** [main]: [uuid] is the text of [uuid1()], [cwd] the working directory of
    the process, [fs] the files present at start, [triples] what
    [generate_triples()] yields. *)
Definition main (toolchain : string -> option Probe.completed)
    (exceeds : nat -> nat -> bool) (uuid cwd : string) (fs : filesystem)
    (triples : list string) (sched : list completion) : ending :=
  let tempfile := tempfile_path uuid in
  let fs1 := write_text tempfile "int main(){return 1;}" fs in
  match schedule toolchain exceeds TASK_COUNT triples sched with
  | Ok st =>
      match unlink cwd (path_name tempfile) fs1 with
      | Some fs2 => Returned fs2 st
      | None =>
          Uncaught (FileNotFoundError (resolve cwd (path_name tempfile))) fs1 st
      end
  | Raise e st => Uncaught e fs1 st
  | OutOfFuel => Unfinished
  end.

(** ** The counters and the path, for the properties of whole runs *)


(** The tasks of the first triples of a run, which are created before any
    wait: numbered from [n], all with the count [i] they start from. *)
Fixpoint first_tasks (n seen : nat) (triples : list string) : list task :=
  match triples with
  | [] => []
  | tr :: triples' => Task n tr seen :: first_tasks (S n) seen triples'
  end.

Fixpoint has_slash (s : string) : bool :=
  match s with
  | EmptyString => false
  | String c r => Ascii.eqb c "/"%char || has_slash r
  end.

(** The text [main] writes to the temporary file. *)
Definition program_text : string := "int main(){return 1;}".

End Scheduler.

(** * The results log: [print(err)] and [literal_eval] *)

Module Log.

Import Probe.
Local Open Scope N_scope.

(** A Python [str] read from the log: its code points. *)
Definition str := list N.

Definition of_string (s : string) : str :=
  map N_of_ascii (list_ascii_of_string s).

Definition code (c : byte) : N := Byte.to_N c.

(** The line boundaries of [str.splitlines]: LF, VT, FF, CR, FS, GS, RS,
    NEL, LINE SEPARATOR and PARAGRAPH SEPARATOR. *)
Definition is_linebreak (c : N) : bool :=
  ((10 <=? c) && (c <=? 13)) || ((28 <=? c) && (c <=? 30))
  || (c =? 133) || (c =? 8232) || (c =? 8233).

(** [s.splitlines()]: the text is cut after every line boundary, CR LF
    counting as one; the boundaries are dropped and no empty line follows a
    final boundary. *)
Fixpoint splitlines (s : str) : list str :=
  match s with
  | [] => []
  | c :: r =>
      if is_linebreak c then
        [] :: splitlines (if c =? 13
                          then match r with
                               | 10 :: r' => r'
                               | _ => r
                               end
                          else r)
      else
        match splitlines r with
        | [] => [[c]]
        | line :: lines => (c :: line) :: lines
        end
  end.

(** ** Writing: [print(err)] with [err] a bytes object prints [repr(err)] *)

(** [hexdigits[n]] of the interpreter, lower case. *)
Definition hexdigit (n : N) : N := if n <? 10 then 48 + n else 87 + n.

Definition SQUOTE : N := 39.
Definition DQUOTE : N := 34.
Definition BACKSLASH : N := 92.

(** One byte of [bytes.__repr__] with the chosen quote. *)
Definition repr_byte (quote : N) (c : byte) : str :=
  let n := code c in
  if (n =? quote) || (n =? BACKSLASH) then [BACKSLASH; n]
  else if n =? 9 then [BACKSLASH; 116]
  else if n =? 10 then [BACKSLASH; 110]
  else if n =? 13 then [BACKSLASH; 114]
  else if (n <? 32) || (127 <=? n) then
    [BACKSLASH; 120; hexdigit (N.shiftr (N.land n 240) 4); hexdigit (N.land n 15)]
  else [n].

(** The quote of the literal: double quotes when the data has a single
    quote and no double quote, single quotes otherwise. *)
Definition repr_quote (data : bytes) : N :=
  let squotes := existsb (fun c => code c =? SQUOTE) data in
  let dquotes := existsb (fun c => code c =? DQUOTE) data in
  if squotes && negb dquotes then DQUOTE else SQUOTE.

Definition bytes_repr (data : bytes) : str :=
  let quote := repr_quote data in
  [98; quote] ++ flat_map (repr_byte quote) data ++ [quote].

(** ** Reading: [literal_eval(output_string)] on a bytes literal *)

Definition hexval (c : N) : option N :=
  if (48 <=? c) && (c <=? 57) then Some (c - 48)
  else if (97 <=? c) && (c <=? 102) then Some (c - 87)
  else if (65 <=? c) && (c <=? 70) then Some (c - 55)
  else None.

Definition octval (c : N) : option N :=
  if (48 <=? c) && (c <=? 55) then Some (c - 48) else None.

(** The one-letter escapes of a bytes literal. *)
Definition simple_escape (c : N) : option N :=
  if c =? BACKSLASH then Some BACKSLASH
  else if c =? SQUOTE then Some SQUOTE
  else if c =? DQUOTE then Some DQUOTE
  else if c =? 97 then Some 7
  else if c =? 98 then Some 8
  else if c =? 102 then Some 12
  else if c =? 110 then Some 10
  else if c =? 114 then Some 13
  else if c =? 116 then Some 9
  else if c =? 118 then Some 11
  else None.

Definition is_printable (c : N) : bool := (32 <=? c) && (c <=? 126).

(** The characters a one-line bytes literal may hold as they are: ASCII
    but NUL, line feed and carriage return (the quote and the backslash are
    looked at before). *)
Definition is_raw (c : N) : bool :=
  (1 <=? c) && (c <=? 127) && negb (c =? 10) && negb (c =? 13).

Definition is_blank (c : N) : bool := (c =? 32) || (c =? 9).

Definition byte_of (n : N) : byte :=
  match Byte.of_N (n mod 256) with
  | Some x => x
  | None => x00
  end.

Definition emit (n : N) (rest : option bytes) : option bytes :=
  option_map (cons (byte_of n)) rest.

(** The text between the quotes, up to the closing quote, after which only
    blanks may follow. A backslash starts a one-letter escape, [\xhh] with
    exactly two hexadecimal digits, or an octal escape of one to three
    digits (stored modulo 256); before any other character the backslash
    stays in the result. *)
Fixpoint literal_body (quote : N) (s : str) : option bytes :=
  match s with
  | [] => None
  | c :: r =>
      if c =? quote then
        if forallb is_blank r then Some [] else None
      else if c =? BACKSLASH then
        match r with
        | [] => None
        | e :: r1 =>
            if e =? 120 then
              match r1 with
              | h1 :: h2 :: r2 =>
                  match hexval h1, hexval h2 with
                  | Some v1, Some v2 => emit (16 * v1 + v2) (literal_body quote r2)
                  | _, _ => None
                  end
              | _ => None
              end
            else
              match octval e with
              | Some o1 =>
                  match r1 with
                  | d2 :: r2 =>
                      match octval d2 with
                      | Some o2 =>
                          match r2 with
                          | d3 :: r3 =>
                              match octval d3 with
                              | Some o3 =>
                                  emit (64 * o1 + 8 * o2 + o3) (literal_body quote r3)
                              | None => emit (8 * o1 + o2) (literal_body quote r2)
                              end
                          | [] => emit (8 * o1 + o2) (literal_body quote r2)
                          end
                      | None => emit o1 (literal_body quote r1)
                      end
                  | [] => emit o1 (literal_body quote r1)
                  end
              | None =>
                  match simple_escape e with
                  | Some v => emit v (literal_body quote r1)
                  | None =>
                      if is_raw e
                      then emit BACKSLASH (emit e (literal_body quote r1))
                      else None
                  end
              end
        end
      else if is_raw c then emit c (literal_body quote r)
      else None
  end.

(** [str.lstrip(" \t")] *)
Fixpoint lstrip (s : str) : str :=
  match s with
  | c :: r => if (c =? 32) || (c =? 9) then lstrip r else s
  | [] => []
  end.

(** [literal_eval] on a line of the log that holds one plain bytes
    literal: after leading blanks, the prefix [b] or [B], one quote
    character, the body, the same quote, and blanks. On such a line it
    gives what [ast.literal_eval] gives. [None] stands for every other
    line. That is a line on which [literal_eval] raises or gives a value
    that is not a bytes object; and it is also a line that spells a bytes
    object in a way this reader leaves out: a raw or triple-quoted
    literal, adjacent literals, parentheses, a comment after the literal.
    (A line of [splitlines] holds no line feed, carriage return or form
    feed, the other characters Python admits around the literal.) *)
Definition literal_eval (s : str) : option bytes :=
  match lstrip s with
  | p :: q :: body =>
      if ((p =? 98) || (p =? 66)) && ((q =? SQUOTE) || (q =? DQUOTE))
      then literal_body q body
      else None
  | _ => None
  end.

End Log.

(** * The crash analyzer ([analyze_results.py]) *)

Module Analyzer.

Import Probe Log.
Local Open Scope N_scope.

(** ** The regular expression *)

(** The pieces [STACK_TRACE_RE] is made of: a literal byte, a greedy
    repetition [cls+] of a class of bytes, and such a repetition inside the
    capturing parentheses. *)
Inductive item : Type :=
| Lit (c : byte)
| Plus (cls : byte -> bool)
| Group (cls : byte -> bool).

Definition between (lo hi : N) (c : byte) : bool :=
  (lo <=? code c) && (code c <=? hi).

(** [[0-9]] *)
Definition is_digit (c : byte) : bool := between 48 57 c.

(** [\s] of a bytes pattern: space, TAB, LF, VT, FF, CR. *)
Definition is_space (c : byte) : bool := (code c =? 32) || between 9 13 c.

(** [[0-9a-f]] *)
Definition is_hex (c : byte) : bool := between 48 57 c || between 97 102 c.

(** [[a-zA-Z_0-9:~]] *)
Definition is_symbol (c : byte) : bool :=
  between 97 122 c || between 65 90 c || (code c =? 95)
  || between 48 57 c || (code c =? 58) || (code c =? 126).

(** [rb"\#[0-9]+\s+0x[0-9a-f]+\s+([a-zA-Z_0-9:~]+)"] *)
Definition STACK_TRACE_RE : list item :=
  [Lit x23; Plus is_digit; Plus is_space; Lit x30; Lit x78;
   Plus is_hex; Plus is_space; Group is_symbol].

(** The backtracking of [cls+]: at least one byte of the class; the longer
    run is tried first and, when the rest of the pattern [k] fails after
    it, the run as it stands. [taken] is the run so far, last byte first. *)
Fixpoint greedy {R : Type} (cls : byte -> bool)
    (k : bytes -> bytes -> option R) (taken s : bytes) : option R :=
  match s with
  | [] => None
  | x :: s' =>
      if cls x then
        match greedy cls k (x :: taken) s' with
        | Some r => Some r
        | None => k (rev (x :: taken)) s'
        end
      else None
  end.

(** A match of the pattern at the start of [s]: the captured groups and
    what follows the match. *)
Fixpoint match_here (p : list item) (groups : list bytes) (s : bytes)
  : option (list bytes * bytes) :=
  match p with
  | [] => Some (rev groups, s)
  | Lit c :: p' =>
      match s with
      | x :: s' => if Byte.eqb x c then match_here p' groups s' else None
      | [] => None
      end
  | Plus cls :: p' => greedy cls (fun _ rest => match_here p' groups rest) [] s
  | Group cls :: p' =>
      greedy cls (fun run rest => match_here p' (run :: groups) rest) [] s
  end.

(** [findall(p, s)] for a pattern with one group whose matches are never
    empty: the group of the leftmost match, then of the leftmost match in
    what follows it, and so on. [skip] counts the bytes still inside the
    last match. *)
Fixpoint findall_from (p : list item) (skip : nat) (s : bytes) : list bytes :=
  match s with
  | [] => []
  | _ :: s' =>
      match skip with
      | S skip' => findall_from p skip' s'
      | O =>
          match match_here p [] s with
          | Some (groups, rest) =>
              hd [] groups
              :: findall_from p (List.length s' - List.length rest) s'
          | None => findall_from p 0 s'
          end
      end
  end.

Definition findall (p : list item) (s : bytes) : list bytes :=
  findall_from p 0 s.

(** The tuple made of [findall(STACK_TRACE_RE, text)]: the key of the
    dictionary. *)
Definition strace_of (text : bytes) : list bytes :=
  findall STACK_TRACE_RE text.

(** ** The dictionary [stack_traces] *)

Definition key := list bytes.
Definition entry : Type := str * bytes.

(** A Python dict: the items in insertion order. *)
Definition dict := list (key * entry).

Definition bytes_eqb (x y : bytes) : bool :=
  if list_eq_dec Byte.byte_eq_dec x y then true else false.

Definition key_eqb (x y : key) : bool :=
  if list_eq_dec (list_eq_dec Byte.byte_eq_dec) x y then true else false.

(** [d[k]] *)
Fixpoint getitem (k : key) (d : dict) : option entry :=
  match d with
  | [] => None
  | (k', v) :: d' => if key_eqb k k' then Some v else getitem k d'
  end.

(** [d[k] = v]: a key already present keeps its place and takes the new
    value, a new key goes to the end. *)
Fixpoint setitem (k : key) (v : entry) (d : dict) : dict :=
  match d with
  | [] => [(k, v)]
  | (k', v') :: d' =>
      if key_eqb k k' then (k', v) :: d' else (k', v') :: setitem k v d'
  end.

(** ** [main] *)

Inductive error : Type :=
| UnpackError (chunk : list str)   (* not enough values to unpack *)
| LiteralError (line : str).       (* literal_eval or findall raised *)

Inductive result : Type :=
| Ok (d : dict)
| Raise (e : error).

(** [more_itertools.chunked(lines, 2)]: a last chunk may be short. *)
Fixpoint chunked2 {A : Type} (lines : list A) : list (list A) :=
  match lines with
  | [] => []
  | [x] => [[x]]
  | x :: y :: lines' => [x; y] :: chunked2 lines'
  end.

Section Main.

(** [literal_eval], as far as the analyzer can tell: the bytes object the
    line denotes, or [None] when [literal_eval] raises or gives a value that
    is not a bytes object, on which [findall] then raises [TypeError]. *)
Variable literal_eval : str -> option bytes.

(** [for result, output_string in chunked(...)]: the body of the loop. *)
Fixpoint loop (chunks : list (list str)) (stack_traces : dict) : result :=
  match chunks with
  | [] => Ok stack_traces
  | [result; output_string] :: chunks' =>
      match literal_eval output_string with
      | None => Raise (LiteralError output_string)
      | Some text =>
          let strace := strace_of text in
          loop chunks' (setitem strace (result, text) stack_traces)
      end
  | chunk :: _ => Raise (UnpackError chunk)
  end.

(** [main], from the text of [results.txt] to the dictionary at the end of
    the first loop. *)
Definition main (results : str) : result :=
  loop (chunked2 (splitlines results)) [].

(** A chunk the loop can take: two lines, the second of which reads as a
    bytes object. *)
Definition well_formed (chunk : list str) : Prop :=
  exists result output_string text,
    chunk = [result; output_string] /\ literal_eval output_string = Some text.

(** The records the loop goes through, in log order, up to the first chunk
    it cannot take. *)
Fixpoint entries (chunks : list (list str)) : list entry :=
  match chunks with
  | [result; output_string] :: chunks' =>
      match literal_eval output_string with
      | Some text => (result, text) :: entries chunks'
      | None => []
      end
  | _ => []
  end.

Definition records (results : str) : list entry :=
  entries (chunked2 (splitlines results)).

End Main.

(** The first and the last record of a log with a given stack trace. *)
Definition has_strace (k : key) (e : entry) : bool :=
  key_eqb (strace_of (snd e)) k.

Definition first_with (k : key) (es : list entry) : option entry :=
  find (has_strace k) es.

Definition last_with (k : key) (es : list entry) : option entry :=
  find (has_strace k) (rev es).

(** What the second loop prints: for every key in the order of the
    dictionary, the stack trace and the first component of its entry. *)
Definition report (d : dict) : list (key * str) :=
  map (fun kv => (fst kv, fst (snd kv))) d.

(** ** The shape of a frame *)

(** A non-empty run of bytes of one class. *)
Definition run (cls : byte -> bool) (l : bytes) : Prop :=
  l <> [] /\ forallb cls l = true.

(** [rest] does not go on with a byte of the class. *)
Definition ends_run (cls : byte -> bool) (rest : bytes) : Prop :=
  match rest with
  | [] => True
  | c :: _ => cls c = false
  end.

(** [s] starts with a frame whose symbol is [symbol], followed by [rest]:
    the mark, a decimal number, white space, [0x], lower-case hexadecimal
    digits, white space, and the longest run of symbol characters. *)
Definition frame_at (s symbol rest : bytes) : Prop :=
  exists number ws1 address ws2,
    s = x23 :: number ++ ws1 ++ x30 :: x78 :: address ++ ws2 ++ symbol ++ rest
    /\ run is_digit number /\ run is_space ws1
    /\ run is_hex address /\ run is_space ws2
    /\ run is_symbol symbol /\ ends_run is_symbol rest.

(** ** The extraction as the specification words it *)

(** The lines of a diagnostic: the text between line feeds. *)
Fixpoint lines_of (text : bytes) : list bytes :=
  match text with
  | [] => [[]]
  | c :: r =>
      if code c =? 10 then [] :: lines_of r
      else
        match lines_of r with
        | [] => [[c]]
        | line :: lines => (c :: line) :: lines
        end
  end.

(** [search(p, s)]: the group of the leftmost match. *)
Fixpoint search (p : list item) (s : bytes) : option bytes :=
  match match_here p [] s with
  | Some (groups, _) => Some (hd [] groups)
  | None =>
      match s with
      | [] => None
      | _ :: s' => search p s'
      end
  end.

(** Line by line: every line in which the frame shape is found gives its
    symbol, in the order of the lines. *)
Definition line_signature (text : bytes) : list bytes :=
  flat_map (fun line =>
              match search STACK_TRACE_RE line with
              | Some symbol => [symbol]
              | None => []
              end)
           (lines_of text).

(** A chunk the loop can take and in whose diagnostic the frame pattern is
    found nowhere. *)
Definition frameless (literal_eval : str -> option bytes) (chunk : list str)
  : Prop :=
  exists result output_string text,
    chunk = [result; output_string]
    /\ literal_eval output_string = Some text
    /\ search STACK_TRACE_RE text = None.

(** The distinct stack traces of a sequence, each at its first place. *)
Definition key_dec : forall x y : key, {x = y} + {x <> y} :=
  list_eq_dec (list_eq_dec Byte.byte_eq_dec).

Definition first_seen (ks : list key) : list key :=
  rev (nodup key_dec (rev ks)).

(** How the loop of [main] extends the keys of the dictionary. *)
Definition add_key (keys : list key) (k : key) : list key :=
  if existsb (key_eqb k) keys then keys else keys ++ [k].

End Analyzer.

(** * What a probe prints ([check_triple]) *)

Module Console.

Import Probe Log.
Local Open Scope string_scope.

(** [print(x)]: the text of [x] and a line feed. *)
Definition print (text : str) : str := (text ++ [10%N])%list.

(** The text of a natural number in an f-string. *)
Definition decimal (n : nat) : string :=
  NilZero.string_of_uint (Nat.to_uint n).

(** [f"Error checking triple (#{i}) `{triple}`:"] *)
Definition error_header (triple : string) (i : nat) : str :=
  of_string ("Error checking triple (#" ++ decimal i ++ ") `" ++ triple ++ "`:").

(** [str(err)]: the literal of a bytes object, a string as it is. *)
Definition payload_text (err : payload) : str :=
  match err with
  | PBytes data => bytes_repr data
  | PStr s => of_string s
  end.

(** [check_triple(triple, i)], given what the child process leaves: the
    text written to the standard output. *)
Definition check_triple (res : completed) (triple : string) (i : nat) : str :=
  let (_valid, err) := check_valid_triple res in
  if payload_truthy err
  then (print (error_header triple i) ++ print (payload_text err))%list
  else [].

(** The record of the log a probe leaves, if any. *)
Definition record_of (res : completed) (triple : string) (i : nat)
  : list (str * bytes) :=
  match classify res with
  | Crashed diagnostic => [(error_header triple i, diagnostic)]
  | Valid => []
  | Invalid => []
  end.

End Console.

(** * The version test of [crash.py] *)

Module Crash.

Import Probe.

(** [.] of a bytes pattern: any byte but the line feed. *)
Definition dot (c : byte) : bool := negb (Byte.eqb c x0a).

(** The pattern [rb"15.0.0"] at the start of [s]. *)
Definition version_here (s : bytes) : bool :=
  match s with
  | c1 :: c2 :: c3 :: c4 :: c5 :: c6 :: _ =>
      Byte.eqb c1 x31 && Byte.eqb c2 x35 && dot c3
      && Byte.eqb c4 x30 && dot c5 && Byte.eqb c6 x30
  | _ => false
  end.

(** [rsearch(rb"15.0.0", version) is not None] *)
Fixpoint version_found (version : bytes) : bool :=
  version_here version
  || match version with
     | [] => false
     | _ :: rest => version_found rest
     end.

End Crash.

(** * Properties of the triple generator *)

Section TripleFacts.

Import Triples.
Local Open Scope string_scope.

Lemma catalog_sep_free :
  forallb (fun s => negb (has_sep s)) (archs ++ vendors ++ oses ++ envs) = true.
Proof. vm_compute. reflexivity. Qed.

Lemma sep_free_of_catalog s :
  In s archs \/ In s vendors \/ In s oses \/ In s envs -> has_sep s = false.
Proof.
  intros H. pose proof catalog_sep_free as C.
  rewrite forallb_forall in C.
  apply negb_true_iff, C. rewrite !in_app_iff. tauto.
Qed.

Lemma append_assoc (a b c : string) : (a ++ b) ++ c = a ++ (b ++ c).
Proof. induction a; simpl; congruence. Qed.

Lemma append_empty_r (a : string) : a ++ "" = a.
Proof. induction a; simpl; congruence. Qed.

(** A present value without separator leaves the scan after a character
    that is not a separator. *)
Lemma well_separated_part p : forall b r,
  has_sep p = false -> p <> "" ->
  well_separated b (p ++ r) = well_separated false r.
Proof.
  induction p as [|c p IH]; intros b r Hs Hne; [congruence|].
  simpl in Hs. apply orb_false_iff in Hs as [Hc Hp].
  simpl. rewrite Hc. destruct p as [|c' p'].
  - reflexivity.
  - apply IH; [exact Hp | discriminate].
Qed.

Lemma well_separated_no_leading t r :
  well_separated true t = true -> t <> "-" ++ r.
Proof. intros H E. subst t. simpl in H. discriminate. Qed.

Lemma well_separated_no_trailing r : forall b t,
  well_separated b t = true -> t <> r ++ "-".
Proof.
  induction r as [|c r IH]; intros b t H E; subst t; simpl in H.
  - destruct b; discriminate.
  - destruct (Ascii.eqb c SEP).
    + apply andb_true_iff in H as [_ H]. exact (IH _ _ H eq_refl).
    + exact (IH _ _ H eq_refl).
Qed.

Lemma well_separated_no_doubled p : forall b t r,
  well_separated b t = true -> t <> p ++ "--" ++ r.
Proof.
  induction p as [|c p IH]; intros b t r H E; subst t; simpl in H.
  - destruct b; simpl in H; discriminate.
  - destruct (Ascii.eqb c SEP).
    + apply andb_true_iff in H as [_ H]. exact (IH _ _ _ H eq_refl).
    + exact (IH _ _ _ H eq_refl).
Qed.

Lemma truthy_true s : truthy s = true -> s <> "".
Proof. destruct s; [discriminate | intros _ E; discriminate]. Qed.

(** The assembled triple is the join of the present values, whatever the
    four values are. *)
Lemma triple_of_join arch vendor op_s environ :
  triple_of arch vendor op_s environ
  = String.concat "-" (filter truthy [arch; vendor; op_s; environ]).
Proof.
  unfold triple_of.
  destruct arch as [|a0 a], vendor as [|v0 v], op_s as [|o0 o],
    environ as [|e0 e]; simpl; rewrite ?append_assoc; simpl;
    rewrite ?append_assoc; reflexivity.
Qed.

Lemma triple_of_empty arch vendor op_s environ :
  triple_of arch vendor op_s environ = ""
  <-> arch = "" /\ vendor = "" /\ op_s = "" /\ environ = "".
Proof.
  unfold triple_of.
  destruct arch, vendor, op_s, environ; simpl; split;
    try discriminate; try tauto; intros (?&?&?&?); discriminate.
Qed.

Lemma joined_well_separated parts :
  Forall (fun p => has_sep p = false /\ p <> "") parts -> parts <> [] ->
  well_separated true (String.concat "-" parts) = true.
Proof.
  intros HF. induction HF as [|p ps [Hs Hne] HF IH]; intros Hnil; [congruence|].
  destruct ps as [|q qs].
  - simpl. rewrite <- (append_empty_r p).
    rewrite (well_separated_part p true "" Hs Hne). reflexivity.
  - change (String.concat "-" (p :: q :: qs))
      with (p ++ "-" ++ String.concat "-" (q :: qs)).
    rewrite (well_separated_part p true _ Hs Hne).
    simpl ("-" ++ _). cbn [well_separated]. simpl.
    apply IH. discriminate.
Qed.

(** C6. For every combination of catalog values, the assembled triple is
    the present values in the order architecture, vendor, system,
    environment joined by one ["-"]; it has no leading, no trailing and no
    doubled separator, and it is empty exactly when the four values are
    absent. *)
Theorem triple_of_separators (arch vendor op_s environ : string) :
  In arch archs -> In vendor vendors -> In op_s oses -> In environ envs ->
  let t := triple_of arch vendor op_s environ in
  t = String.concat "-" (filter truthy [arch; vendor; op_s; environ])
  /\ (forall r, t <> "-" ++ r)
  /\ (forall r, t <> r ++ "-")
  /\ (forall p r, t <> p ++ "--" ++ r)
  /\ (t = "" <-> arch = "" /\ vendor = "" /\ op_s = "" /\ environ = "").
Proof.
  intros Ha Hv Ho He t.
  assert (Hj : t = String.concat "-" (filter truthy [arch; vendor; op_s; environ]))
    by apply triple_of_join.
  pose proof (triple_of_empty arch vendor op_s environ) as Hempty.
  fold t in Hempty.
  split; [exact Hj|].
  assert (Hparts : Forall (fun p => has_sep p = false /\ p <> "")
                     (filter truthy [arch; vendor; op_s; environ])).
  { apply Forall_forall. intros p Hp. apply filter_In in Hp as [Hin Ht].
    split; [|apply truthy_true; exact Ht].
    apply sep_free_of_catalog. simpl in Hin.
    destruct Hin as [<-|[<-|[<-|[<-|[]]]]]; tauto. }
  destruct (filter truthy [arch; vendor; op_s; environ]) as [|p ps] eqn:Ef.
  - simpl in Hj. refine (conj _ (conj _ (conj _ Hempty))).
    + intros r E. rewrite Hj in E. discriminate.
    + intros r E. rewrite Hj in E. destruct r; discriminate.
    + intros q r E. rewrite Hj in E. destruct q; discriminate.
  - assert (W : well_separated true t = true).
    { rewrite Hj. apply joined_well_separated; [exact Hparts | discriminate]. }
    refine (conj _ (conj _ (conj _ Hempty))).
    + intros r. apply well_separated_no_leading, W.
    + intros r. apply (well_separated_no_trailing r _ _ W).
    + intros q r. apply (well_separated_no_doubled q _ _ r W).
Qed.

Ltac in_catalog := simpl; repeat first [left; reflexivity | right].

Lemma triple_of_separators_witness :
  let t := triple_of "i386" "apple" "windows" "eabi" in
  t = String.concat "-" (filter truthy ["i386"; "apple"; "windows"; "eabi"])
  /\ (forall r, t <> "-" ++ r)
  /\ (forall r, t <> r ++ "-")
  /\ (forall p r, t <> p ++ "--" ++ r)
  /\ (t = "" <-> "i386" = "" /\ "apple" = "" /\ "windows" = "" /\ "eabi" = "").
Proof.
  apply (triple_of_separators "i386" "apple" "windows" "eabi"); in_catalog.
Defined.

(** The scenario of the specification: the sixteen triples of four axes of
    two values each, the last axis varying fastest. *)
Example generate_sixteen :
  generate_from ["i386"; ""] ["pc"; ""] ["linux"; ""] ["gnu"; ""]
  = ["i386-pc-linux-gnu"; "i386-pc-linux"; "i386-pc-gnu"; "i386-pc";
     "i386-linux-gnu"; "i386-linux"; "i386-gnu"; "i386";
     "pc-linux-gnu"; "pc-linux"; "pc-gnu"; "pc";
     "linux-gnu"; "linux"; "gnu"; ""].
Proof. reflexivity. Qed.

End TripleFacts.

(** * Properties of the probe classification *)

Section ProbeFacts.

Import Probe.
Local Open Scope string_scope.
Local Open Scope list_scope.

Lemma byte_eqb_eq (x y : byte) : Byte.eqb x y = true <-> x = y.
Proof.
  split.
  - apply Byte.byte_dec_bl.
  - apply Byte.byte_dec_lb.
Qed.

Lemma starts_with_spec needle : forall hay,
  starts_with needle hay = true <-> exists post, hay = needle ++ post.
Proof.
  induction needle as [|x needle IH]; intros hay; simpl.
  - split; [intros _; exists hay; reflexivity | reflexivity].
  - destruct hay as [|y hay].
    + split; [discriminate | intros [post E]; discriminate].
    + rewrite andb_true_iff, byte_eqb_eq, IH. split.
      * intros [-> [post ->]]. exists post. reflexivity.
      * intros [post E]. injection E as -> ->. split; [reflexivity | eauto].
Qed.

(** [needle in hay] holds exactly when [needle] is a contiguous slice. *)
Lemma bytes_in_spec needle : forall hay,
  bytes_in needle hay = true <-> exists pre post, hay = pre ++ needle ++ post.
Proof.
  induction hay as [|y hay IH]; simpl; rewrite orb_true_iff, starts_with_spec.
  - split.
    + intros [[post E]|H]; [exists [], post; exact E | discriminate].
    + intros [pre [post E]]. left. destruct pre; [eauto | discriminate].
  - rewrite IH. split.
    + intros [[post E]|[pre [post E]]].
      * exists [], post. exact E.
      * exists (y :: pre), post. rewrite E. reflexivity.
    + intros [pre [post E]]. destruct pre as [|z pre].
      * left. exists post. exact E.
      * right. injection E as _ E. eauto.
Qed.

Lemma bytes_in_sentinel_nonempty data :
  bytes_in sentinel data = true -> payload_truthy (PBytes data) = true.
Proof. destruct data; [discriminate | reflexivity]. Qed.

(** A sentinel in one of the streams is a sentinel in their concatenation;
    the converse fails. *)
Lemma sentinel_in_stream_in_concat out err :
  bytes_in sentinel out = true \/ bytes_in sentinel err = true ->
  bytes_in sentinel (out ++ err) = true.
Proof.
  rewrite !bytes_in_spec. intros [[pre [post ->]]|[pre [post ->]]].
  - exists pre, (post ++ err). rewrite <- !app_assoc. reflexivity.
  - exists (out ++ pre), post. rewrite <- !app_assoc. reflexivity.
Qed.

(** C3, as stated, fails: with [PLE] at the end of the standard output and
    [ASE] at the start of the standard error the sentinel occurs in the
    concatenation of the streams, yet the probe is classified by its exit
    code; the same concatenation and exit code give a crash when the
    sentinel lies within one stream. *)
Lemma straddling_sentinel_not_seen :
  let res := Completed (b "PLE") (b "ASE") (Some 0%Z) in
  let res' := Completed (b "PLEASE") [] (Some 0%Z) in
  bytes_in sentinel (stdout res ++ stderr res) = true
  /\ classify res = Valid
  /\ stdout res ++ stderr res = stdout res' ++ stderr res'
  /\ returncode res = returncode res'
  /\ classify res' = Crashed (b "PLEASE").
Proof. repeat split. Qed.

(** C3, amended. A sentinel within the standard output or within the
    standard error gives a crash whose diagnostic is the concatenation of
    the two streams, whatever the exit code; otherwise exit code zero gives
    valid and an exit code other than zero gives invalid, both without
    diagnostic. (Nothing is said of a child whose exit status is not yet
    collected when [returncode] is read.) *)
Theorem classification_by_stream (res : completed) :
  let out := stdout res in
  let err := stderr res in
  (bytes_in sentinel out = true \/ bytes_in sentinel err = true ->
     check_valid_triple res = (false, PBytes (out ++ err))
     /\ classify res = Crashed (out ++ err))
  /\ (bytes_in sentinel out = false -> bytes_in sentinel err = false ->
      (returncode res = Some 0%Z ->
         check_valid_triple res = (true, PStr "") /\ classify res = Valid)
      /\ (forall code, returncode res = Some code -> code <> 0%Z ->
         check_valid_triple res = (false, PStr "") /\ classify res = Invalid)).
Proof.
  intros out err. unfold classify, check_valid_triple. fold out err. split.
  - intros H.
    assert (T : payload_truthy (PBytes (out ++ err)) = true)
      by (apply bytes_in_sentinel_nonempty, sentinel_in_stream_in_concat, H).
    assert (E : bytes_in sentinel out || bytes_in sentinel err = true)
      by (apply orb_true_iff; exact H).
    rewrite E. split; [reflexivity|].
    unfold outcome_of. rewrite T. reflexivity.
  - intros Ho He. rewrite Ho, He. simpl. split.
    + intros ->. split; reflexivity.
    + intros code -> Hrc.
      assert (Z : returncode_is_zero (Some code) = false)
        by (apply Z.eqb_neq; exact Hrc).
      rewrite Z. split; reflexivity.
Qed.

Lemma classification_by_stream_witness :
  classify (Completed (b "clang: PLEASE submit a bug report") (b "#0 0x1 f") (Some 1%Z))
  = Crashed (b "clang: PLEASE submit a bug report" ++ b "#0 0x1 f")
  /\ classify (Completed [] [] (Some 0%Z)) = Valid
  /\ classify (Completed [] (b "error: unknown target triple") (Some 1%Z)) = Invalid.
Proof.
  split; [|split].
  - apply (proj1 (classification_by_stream
             (Completed (b "clang: PLEASE submit a bug report") (b "#0 0x1 f")
                        (Some 1%Z)))).
    left. reflexivity.
  - apply (proj1 (proj2 (classification_by_stream (Completed [] [] (Some 0%Z)))
                    eq_refl eq_refl)).
    reflexivity.
  - apply (proj2 (proj2 (classification_by_stream
             (Completed [] (b "error: unknown target triple") (Some 1%Z)))
                    eq_refl eq_refl) 1%Z eq_refl).
    discriminate.
Defined.

End ProbeFacts.

(** * Properties of the log encoding *)

Section LogFacts.

Import Probe Log.
Local Open Scope N_scope.

Lemma byte_of_code (c : byte) : byte_of (code c) = c.
Proof. destruct c; reflexivity. Qed.

Lemma repr_quote_cases data : repr_quote data = SQUOTE \/ repr_quote data = DQUOTE.
Proof. unfold repr_quote. destruct (_ && _); auto. Qed.

(** Reading back the escape of one byte gives the byte, whatever follows. *)
Lemma literal_body_repr_byte quote c rest :
  quote = SQUOTE \/ quote = DQUOTE ->
  literal_body quote (repr_byte quote c ++ rest)
  = emit (code c) (literal_body quote rest).
Proof.
  intros [-> | ->]; destruct c; reflexivity.
Qed.

Lemma literal_body_repr quote data :
  quote = SQUOTE \/ quote = DQUOTE ->
  literal_body quote (flat_map (repr_byte quote) data ++ [quote]) = Some data.
Proof.
  intros Hq. induction data as [|c data IH].
  - destruct Hq as [-> | ->]; reflexivity.
  - simpl flat_map. rewrite <- app_assoc.
    rewrite (literal_body_repr_byte quote c _ Hq), IH.
    simpl. rewrite byte_of_code. reflexivity.
Qed.

Lemma literal_eval_bytes_repr data : literal_eval (bytes_repr data) = Some data.
Proof.
  unfold bytes_repr, literal_eval.
  destruct (repr_quote_cases data) as [E | E]; rewrite E;
    cbn [app lstrip N.eqb Pos.eqb orb andb SQUOTE DQUOTE];
    apply literal_body_repr; auto.
Qed.

Lemma repr_byte_printable quote c :
  is_printable quote = true -> forallb is_printable (repr_byte quote c) = true.
Proof.
  intros Hq. unfold repr_byte.
  destruct (_ || _) eqn:E1.
  - apply orb_true_iff in E1 as [E|E]; apply N.eqb_eq in E; rewrite E.
    + simpl. rewrite Hq. reflexivity.
    + reflexivity.
  - clear E1. destruct c; reflexivity.
Qed.

Lemma repr_bytes_printable quote data :
  is_printable quote = true ->
  forallb is_printable (flat_map (repr_byte quote) data) = true.
Proof.
  intros Hq. induction data as [|c data IH]; simpl; [reflexivity|].
  rewrite forallb_app, (repr_byte_printable quote c Hq). exact IH.
Qed.

Lemma bytes_repr_printable data : forallb is_printable (bytes_repr data) = true.
Proof.
  unfold bytes_repr.
  assert (Hq : is_printable (repr_quote data) = true)
    by (destruct (repr_quote_cases data) as [-> | ->]; reflexivity).
  simpl. rewrite Hq. simpl. rewrite forallb_app. simpl. rewrite Hq.
  rewrite andb_true_r. apply repr_bytes_printable, Hq.
Qed.

Lemma printable_not_linebreak c : is_printable c = true -> is_linebreak c = false.
Proof.
  unfold is_printable, is_linebreak. intros H.
  apply andb_true_iff in H as [H1 H2].
  apply N.leb_le in H1, H2.
  repeat (apply orb_false_iff; split);
    try (apply andb_false_iff; right; apply N.leb_gt; lia);
    apply N.eqb_neq; lia.
Qed.

(** A line without line boundary, closed by a line feed, is split off as it
    is. *)
Lemma splitlines_line line rest :
  forallb (fun c => negb (is_linebreak c)) line = true ->
  splitlines (line ++ 10 :: rest) = line :: splitlines rest.
Proof.
  induction line as [|c line IH]; intros H.
  - reflexivity.
  - simpl in H. apply andb_true_iff in H as [Hc H].
    apply negb_true_iff in Hc.
    simpl. rewrite Hc, (IH H). reflexivity.
Qed.

Lemma splitlines_single line :
  forallb (fun c => negb (is_linebreak c)) line = true -> line <> [] ->
  splitlines line = [line].
Proof.
  induction line as [|c line IH]; intros H Hne; [congruence|].
  simpl in H. apply andb_true_iff in H as [Hc H].
  apply negb_true_iff in Hc. simpl. rewrite Hc.
  destruct line as [|c' line'].
  - reflexivity.
  - rewrite (IH H); [reflexivity | discriminate].
Qed.

Lemma bytes_repr_no_linebreak data :
  forallb (fun c => negb (is_linebreak c)) (bytes_repr data) = true.
Proof.
  pose proof (bytes_repr_printable data) as H.
  rewrite forallb_forall in *. intros c Hc.
  apply negb_true_iff, printable_not_linebreak, H, Hc.
Qed.

(** C8. For every byte string, reading the printed literal back gives the
    bytes, and the printed literal is one line of the log. *)
Theorem escape_roundtrip (data : bytes) :
  literal_eval (bytes_repr data) = Some data
  /\ splitlines (bytes_repr data) = [bytes_repr data]
  /\ splitlines (bytes_repr data ++ [10]) = [bytes_repr data].
Proof.
  split; [apply literal_eval_bytes_repr|]. split.
  - apply splitlines_single; [apply bytes_repr_no_linebreak | discriminate].
  - apply (splitlines_line _ [] (bytes_repr_no_linebreak data)).
Qed.

(** The scenario of the specification: a diagnostic with embedded line
    feeds. *)
Example escape_roundtrip_newlines :
  bytes_repr (b "a" ++ [x0a] ++ b "b" ++ [x0d; x0a])
  = of_string "b'a\nb\r\n'"
  /\ literal_eval (of_string "b'a\nb\r\n'")
     = Some (b "a" ++ [x0a] ++ b "b" ++ [x0d; x0a]).
Proof. split; reflexivity. Qed.

End LogFacts.

(** * Properties of the crash analyzer *)

Section DictFacts.

Import Probe Log Analyzer.

Lemma key_eqb_eq (x y : key) : key_eqb x y = true <-> x = y.
Proof. unfold key_eqb. destruct list_eq_dec; split; congruence. Qed.

Lemma key_eqb_refl (x : key) : key_eqb x x = true.
Proof. apply key_eqb_eq. reflexivity. Qed.

Lemma key_eqb_neq (x y : key) : key_eqb x y = false <-> x <> y.
Proof. unfold key_eqb. destruct list_eq_dec; split; congruence. Qed.

Lemma getitem_setitem_same k v d : getitem k (setitem k v d) = Some v.
Proof.
  induction d as [|[k' v'] d IH]; simpl.
  - rewrite key_eqb_refl. reflexivity.
  - destruct (key_eqb k k') eqn:E; simpl; rewrite E; [reflexivity | exact IH].
Qed.

Lemma getitem_setitem_other k k' v d :
  k <> k' -> getitem k (setitem k' v d) = getitem k d.
Proof.
  intros Hne. induction d as [|[k0 v0] d IH]; simpl.
  - apply key_eqb_neq in Hne. rewrite Hne. reflexivity.
  - destruct (key_eqb k' k0) eqn:E; simpl.
    + apply key_eqb_eq in E. subst k0.
      apply key_eqb_neq in Hne. rewrite Hne. reflexivity.
    + rewrite IH. reflexivity.
Qed.

Lemma setitem_keys k v d :
  map fst (setitem k v d)
  = if existsb (key_eqb k) (map fst d) then map fst d else map fst d ++ [k].
Proof.
  induction d as [|[k0 v0] d IH]; simpl; [reflexivity|].
  destruct (key_eqb k k0); simpl; [reflexivity|].
  rewrite IH. destruct (existsb _ _); reflexivity.
Qed.

Lemma setitem_NoDup k v d : NoDup (map fst d) -> NoDup (map fst (setitem k v d)).
Proof.
  intros H. rewrite setitem_keys.
  destruct (existsb (key_eqb k) (map fst d)) eqn:E; [exact H|].
  apply NoDup_app; [exact H | repeat constructor; intros [] | ].
  intros x Hx [Ex|[]]. subst x.
  assert (existsb (key_eqb k) (map fst d) = true); [|congruence].
  apply existsb_exists. exists k. split; [exact Hx | apply key_eqb_refl].
Qed.

Lemma find_app {A} (f : A -> bool) (l l' : list A) :
  find f (l ++ l') = match find f l with Some x => Some x | None => find f l' end.
Proof. induction l as [|a l IH]; simpl; [reflexivity|]. destruct (f a); auto. Qed.

Lemma last_with_cons k e es :
  last_with k (e :: es)
  = match last_with k es with
    | Some r => Some r
    | None => if has_strace k e then Some e else None
    end.
Proof. unfold last_with. simpl. rewrite find_app. reflexivity. Qed.

End DictFacts.

Section SearchFacts.

Import Probe Log Analyzer.

(** Where the pattern is found nowhere, [findall] finds nothing. *)
Lemma search_none_findall p s :
  search p s = None -> findall p s = [].
Proof.
  unfold findall. induction s as [|c s IH]; intros H.
  - reflexivity.
  - cbn [search] in H. cbn [findall_from].
    destruct (match_here p [] (c :: s)) as [[groups rest]|]; [discriminate H|].
    apply IH, H.
Qed.

End SearchFacts.

Section LoopFacts.

Import Probe Log Analyzer.

Variable literal_eval : str -> option bytes.

Lemma list_pair_ind {A} (P : list A -> Prop) :
  P [] -> (forall x, P [x]) -> (forall x y l, P l -> P (x :: y :: l)) ->
  forall l, P l.
Proof.
  intros H0 H1 H2.
  assert (H : forall l, P l /\ forall x, P (x :: l)).
  { induction l as [|y l [IH1 IH2]]; split; auto. }
  intros l. apply H.
Qed.

(** When the loop ends without exception every chunk was well formed, and
    every key holds the last record with its stack trace, or what it held
    before the loop when no record has it. *)
Lemma loop_ok chunks : forall d0 d,
  loop literal_eval chunks d0 = Ok d ->
  Forall (well_formed literal_eval) chunks
  /\ (NoDup (map fst d0) -> NoDup (map fst d))
  /\ forall k, getitem k d
       = match last_with k (entries literal_eval chunks) with
         | Some e => Some e
         | None => getitem k d0
         end.
Proof.
  induction chunks as [|chunk chunks IH]; intros d0 d H.
  - injection H as <-. split; [constructor|]. split; auto.
  - destruct chunk as [|result [|output_string [|extra chunk]]];
      try discriminate H.
    cbn [loop] in H. cbn [entries].
    destruct (literal_eval output_string) as [text|] eqn:E; [|discriminate H].
    apply IH in H as (HF & HN & HG).
    split; [|split].
    + constructor; [|exact HF]. exists result, output_string, text. auto.
    + intros N. apply HN, setitem_NoDup, N.
    + intros k. rewrite HG, last_with_cons.
      destruct (last_with k (entries literal_eval chunks)); [reflexivity|].
      unfold has_strace. simpl snd.
      destruct (key_eqb (strace_of text) k) eqn:Ek.
      * apply key_eqb_eq in Ek. subst k. apply getitem_setitem_same.
      * apply key_eqb_neq in Ek. apply getitem_setitem_other. congruence.
Qed.

(** The loop takes every well-formed chunk. *)
Lemma loop_well_formed chunks : forall d0,
  Forall (well_formed literal_eval) chunks -> exists d, loop literal_eval chunks d0 = Ok d.
Proof.
  induction chunks as [|chunk chunks IH]; intros d0 H.
  - exists d0. reflexivity.
  - inversion H as [|? ? (result & o & text & -> & E) HF]; subst.
    cbn [loop]. rewrite E. apply IH, HF.
Qed.

Lemma chunked2_even {A} (lines : list A) :
  Forall (fun chunk => List.length chunk = 2) (chunked2 lines) ->
  Nat.even (List.length lines) = true.
Proof.
  induction lines as [| x | x y lines IH] using list_pair_ind; intros H.
  - reflexivity.
  - inversion H as [|? ? E]; discriminate E.
  - inversion H; subst. simpl. apply IH. assumption.
Qed.

(** On an odd number of lines the chunks end with a chunk of one line. *)
Lemma chunked2_odd {A} (lines : list A) :
  Nat.odd (List.length lines) = true ->
  exists pairs x, chunked2 lines = pairs ++ [[x]]
    /\ Forall (fun chunk => List.length chunk = 2) pairs
    /\ forall d, last lines d = x.
Proof.
  induction lines as [| x | x y lines IH] using list_pair_ind; intros H.
  - discriminate H.
  - exists [], x. repeat split. constructor.
  - destruct (IH H) as (pairs & z & E & F & La).
    exists ([x; y] :: pairs), z. simpl chunked2. rewrite E.
    split; [reflexivity|].
    split; [constructor; [reflexivity | exact F]|].
    destruct lines as [|w lines']; [discriminate H | exact La].
Qed.

Lemma loop_app chunks1 : forall chunks2 d0,
  loop literal_eval (chunks1 ++ chunks2) d0
  = match loop literal_eval chunks1 d0 with
    | Ok d => loop literal_eval chunks2 d
    | Raise e => Raise e
    end.
Proof.
  induction chunks1 as [|chunk chunks1 IH]; intros chunks2 d0; [reflexivity|].
  destruct chunk as [|result [|output_string [|extra chunk]]]; try reflexivity.
  cbn [app loop]. destruct (literal_eval output_string); [apply IH | reflexivity].
Qed.

(** Records without frame all go to the key of the empty stack trace, which
    holds the last of them. *)
Lemma loop_frameless chunks : forall d0,
  Forall (frameless literal_eval) chunks ->
  d0 = [] \/ (exists e0, d0 = [([], e0)]) ->
  loop literal_eval chunks d0
  = Ok match rev (entries literal_eval chunks) with
       | [] => d0
       | e :: _ => [([], e)]
       end.
Proof.
  induction chunks as [|chunk chunks IH]; intros d0 HF Hd0; [reflexivity|].
  inversion HF as [|? ? (result & o & text & -> & E & S) HF']; subst.
  cbn [loop entries]. unfold strace_of. rewrite E, (search_none_findall _ _ S).
  rewrite IH; [|exact HF'|].
  - cbn [rev]. destruct (rev (entries literal_eval chunks)) as [|e es].
    + destruct Hd0 as [-> | [e0 ->]]; reflexivity.
    + reflexivity.
  - right. exists (result, text). destruct Hd0 as [-> | [e0 ->]]; reflexivity.
Qed.

End LoopFacts.

Section AnalyzerClaims.

Import Probe Log Analyzer.
Local Open Scope string_scope.
Local Open Scope list_scope.

(** C10. On a log with an odd number of lines the analyzer raises; when the
    complete pairs before it all read, the exception is the failed
    unpacking of the final one-line chunk. It ends without exception only on
    an even number of lines whose second lines all read as bytes. *)
Theorem odd_log_raises (literal_eval : str -> option bytes) (results : str) :
  let lines := splitlines results in
  (Nat.odd (List.length lines) = true ->
     (exists e, main literal_eval results = Raise e)
     /\ ((forall result output_string,
            In [result; output_string] (chunked2 lines) ->
            literal_eval output_string <> None) ->
         main literal_eval results = Raise (UnpackError [last lines []])))
  /\ (forall d, main literal_eval results = Ok d ->
        Nat.even (List.length lines) = true
        /\ Forall (well_formed literal_eval) (chunked2 lines)).
Proof.
  intros lines. unfold main. fold lines. split.
  - intros Hodd.
    destruct (chunked2_odd lines Hodd) as (pairs & x & E & F & La).
    rewrite E, loop_app, (La []). split.
    + destruct (loop literal_eval pairs []) as [d|e]; simpl; eauto.
    + intros Hvalid.
      assert (W : Forall (well_formed literal_eval) pairs).
      { apply Forall_forall. intros chunk Hin.
        rewrite Forall_forall in F. specialize (F chunk Hin).
        destruct chunk as [|result [|o [|extra chunk]]]; try discriminate F.
        destruct (literal_eval o) as [text|] eqn:Eo.
        - exists result, o, text. auto.
        - exfalso. apply (Hvalid result o); [|exact Eo].
          apply in_or_app. left. exact Hin. }
      destruct (loop_well_formed literal_eval pairs [] W) as [d ->].
      reflexivity.
  - intros d H. apply loop_ok in H as (HF & _ & _).
    split; [|exact HF].
    apply chunked2_even. eapply Forall_impl; [|exact HF].
    intros chunk (result & o & text & -> & _). reflexivity.
Qed.

Lemma odd_log_raises_witness :
  let results := of_string "t1" ++ [10%N] ++ bytes_repr (b "#0 0x1 f")
                 ++ [10%N] ++ of_string "t2" in
  (exists e, main Log.literal_eval results = Raise e)
  /\ main Log.literal_eval results = Raise (UnpackError [of_string "t2"]).
Proof.
  intros results.
  destruct (proj1 (odd_log_raises Log.literal_eval results) eq_refl) as [H1 H2].
  split; [exact H1|].
  apply H2. intros result o [E|[E|[]]]; [|discriminate E].
  injection E as <- <-. discriminate.
Defined.

(** C1, as stated, fails: of two records with the same frames the analyzer
    keeps the second, not the first. *)
Lemma first_record_overwritten :
  let results := of_string "t1" ++ [10%N] ++ bytes_repr (b "#0 0x1 f")
                 ++ [10%N] ++ of_string "t2" ++ [10%N]
                 ++ bytes_repr (b "#7 0xbeef f") ++ [10%N] in
  strace_of (b "#0 0x1 f") = strace_of (b "#7 0xbeef f")
  /\ first_with [b "f"] (records Log.literal_eval results)
     = Some (of_string "t1", b "#0 0x1 f")
  /\ main Log.literal_eval results
     = Ok [([b "f"], (of_string "t2", b "#7 0xbeef f"))].
Proof. repeat split. Qed.

(** C1, amended. For every log the analyzer reads to the end and every
    stack trace, the dictionary holds one entry for the stack trace, and it
    is the last record of the log with that stack trace: every earlier
    record with the same frames is overwritten, whatever its first line and
    its diagnostic. *)
Theorem last_record_wins (literal_eval : str -> option bytes)
    (results : str) (d : dict) :
  main literal_eval results = Ok d ->
  NoDup (map fst d)
  /\ forall k, getitem k d = last_with k (records literal_eval results).
Proof.
  intros H. apply loop_ok in H as (_ & HN & HG). split.
  - apply HN. constructor.
  - intros k. rewrite HG. unfold records.
    destruct (last_with k _); reflexivity.
Qed.

Lemma last_record_wins_witness :
  let results := of_string "t1" ++ [10%N] ++ bytes_repr (b "#0 0x1 f")
                 ++ [10%N] ++ of_string "t2" ++ [10%N]
                 ++ bytes_repr (b "#7 0xbeef f") ++ [10%N] in
  let d := [([b "f"], (of_string "t2", b "#7 0xbeef f"))] in
  NoDup (map fst d)
  /\ forall k, getitem k d = last_with k (records Log.literal_eval results).
Proof.
  intros results d.
  apply (last_record_wins Log.literal_eval results d). reflexivity.
Defined.

(** C9, as stated, fails: no line of this diagnostic has the shape of a
    frame, yet its stack trace is not empty and its group is not the group
    of the empty stack trace. *)
Lemma frame_across_lines_has_strace :
  let text := b "#0" ++ [x0a] ++ b "0x12" ++ [x0a] ++ b "foo" in
  let results := of_string "t1" ++ [10%N] ++ bytes_repr text ++ [10%N] in
  line_signature text = []
  /\ strace_of text = [b "foo"]
  /\ main Log.literal_eval results = Ok [([b "foo"], (of_string "t1", text))].
Proof. repeat split. Qed.

(** C9, amended. A diagnostic in which the frame pattern is found nowhere
    (a frame may run over several lines, since line breaks are white space)
    has the empty stack trace; the loop does not raise on its record and
    files it under the key of the empty stack trace; in every log the
    analyzer reads to the end the dictionary has one entry at most for that
    key, and as soon as one record of the log is without frame the entry
    is there and holds the last record with the empty stack trace. When no
    record of the log has a frame, the analyzer does not raise and that
    entry is the whole dictionary. *)
Theorem frameless_collapse (literal_eval : str -> option bytes) (results : str) :
  (forall text, search STACK_TRACE_RE text = None -> strace_of text = [])
  /\ (forall result output_string text chunks d0,
        literal_eval output_string = Some text ->
        search STACK_TRACE_RE text = None ->
        loop literal_eval ([result; output_string] :: chunks) d0
        = loop literal_eval chunks (setitem [] (result, text) d0))
  /\ (forall d, main literal_eval results = Ok d ->
        NoDup (map fst d)
        /\ forall e, In e (records literal_eval results) ->
             search STACK_TRACE_RE (snd e) = None ->
             has_strace [] e = true
             /\ exists e', getitem [] d = Some e'
                  /\ last_with [] (records literal_eval results) = Some e')
  /\ (Forall (frameless literal_eval) (chunked2 (splitlines results)) ->
        Forall (fun e => strace_of (snd e) = []) (records literal_eval results)
        /\ main literal_eval results
           = Ok match rev (records literal_eval results) with
                | [] => []
                | e :: _ => [([], e)]
                end).
Proof.
  split; [|split; [|split]].
  - intros text S. apply (search_none_findall _ _ S).
  - intros result o text chunks d0 E S. cbn [loop].
    rewrite E. unfold strace_of. rewrite (search_none_findall _ _ S).
    reflexivity.
  - intros d H. apply loop_ok in H as (_ & HN & HG).
    split; [apply HN; constructor|].
    intros e Hin S.
    assert (K : has_strace [] e = true).
    { unfold has_strace, strace_of. rewrite (search_none_findall _ _ S).
      apply key_eqb_refl. }
    split; [exact K|].
    rewrite HG. fold (records literal_eval results).
    destruct (last_with [] (records literal_eval results)) as [e'|] eqn:L.
    + exists e'. split; reflexivity.
    + exfalso. unfold last_with in L.
      pose proof (find_none _ _ L e (proj1 (in_rev _ _) Hin)) as F.
      congruence.
  - intros H. split.
    + unfold records.
      induction H as [|chunk chunks (r & o & text & -> & E & S) H IH].
      * constructor.
      * cbn [entries]. rewrite E. constructor; [|exact IH].
        apply (search_none_findall _ _ S).
    + apply loop_frameless; auto.
Qed.

Lemma frameless_collapse_witness :
  let results := of_string "t1" ++ [10%N] ++ bytes_repr (b "Segmentation fault")
                 ++ [10%N] ++ of_string "t2" ++ [10%N]
                 ++ bytes_repr (b "#0 0x1 f") ++ [10%N]
                 ++ of_string "t3" ++ [10%N]
                 ++ bytes_repr (b "#0 0xABC f") ++ [10%N] in
  let d := [([], (of_string "t3", b "#0 0xABC f"));
            ([b "f"], (of_string "t2", b "#0 0x1 f"))] in
  NoDup (map fst d)
  /\ forall e, In e (records Log.literal_eval results) ->
       search STACK_TRACE_RE (snd e) = None ->
       has_strace [] e = true
       /\ exists e', getitem [] d = Some e'
            /\ last_with [] (records Log.literal_eval results) = Some e'.
Proof.
  intros results d.
  apply (proj1 (proj2 (proj2 (frameless_collapse Log.literal_eval results))) d).
  reflexivity.
Defined.

End AnalyzerClaims.

(** * The stack-trace pattern *)

Section RegexFacts.

Import Probe Log Analyzer.
Local Open Scope string_scope.
Local Open Scope list_scope.

Lemma greedy_stops {R} cls (k : bytes -> bytes -> option R) taken rest :
  ends_run cls rest -> greedy cls k taken rest = None.
Proof.
  destruct rest as [|c rest]; simpl; [reflexivity|]. intros ->. reflexivity.
Qed.

(** The longest run is taken when the rest of the pattern matches after it. *)
Lemma greedy_longest {R} cls (k : bytes -> bytes -> option R) l :
  forall taken rest r,
  run cls l -> ends_run cls rest ->
  k (rev taken ++ l) rest = Some r ->
  greedy cls k taken (l ++ rest) = Some r.
Proof.
  induction l as [|x l IH]; intros taken rest r [Hne Hall] Hend Hk;
    [congruence|].
  simpl in Hall. apply andb_true_iff in Hall as [Hx Hall].
  simpl. rewrite Hx. destruct l as [|y l'].
  - simpl. rewrite (greedy_stops cls k (x :: taken) rest Hend). exact Hk.
  - rewrite (IH (x :: taken) rest r); [reflexivity | | exact Hend |].
    + split; [discriminate | exact Hall].
    + simpl rev. rewrite <- app_assoc. exact Hk.
Qed.

(** Whatever the backtracking, a success consumed a run of the class. *)
Lemma greedy_sound {R} cls (k : bytes -> bytes -> option R) s :
  forall taken r,
  greedy cls k taken s = Some r ->
  exists l rest, s = l ++ rest /\ run cls l /\ k (rev taken ++ l) rest = Some r.
Proof.
  induction s as [|x s IH]; intros taken r H; simpl in H; [discriminate|].
  destruct (cls x) eqn:Hx; [|discriminate].
  destruct (greedy cls k (x :: taken) s) as [r'|] eqn:G.
  - injection H as ->. destruct (IH _ _ G) as (l & rest & -> & [Hne Hall] & Hk).
    exists (x :: l), rest. split; [reflexivity|]. split.
    + split; [discriminate | simpl; rewrite Hx; exact Hall].
    + simpl rev in Hk. rewrite <- app_assoc in Hk. exact Hk.
  - exists [x], s. split; [reflexivity|]. split.
    + split; [discriminate | simpl; rewrite Hx; reflexivity].
    + exact H.
Qed.

(** At the end of the pattern nothing fails, and the run is the longest. *)
Lemma greedy_last {R} cls (f : bytes -> bytes -> R) s :
  forall taken r,
  greedy cls (fun l rest => Some (f l rest)) taken s = Some r ->
  exists l rest, s = l ++ rest /\ run cls l /\ ends_run cls rest
                 /\ r = f (rev taken ++ l) rest.
Proof.
  induction s as [|x s IH]; intros taken r H; simpl in H; [discriminate|].
  destruct (cls x) eqn:Hx; [|discriminate].
  destruct (greedy cls _ (x :: taken) s) as [r'|] eqn:G.
  - injection H as ->.
    destruct (IH _ _ G) as (l & rest & -> & [Hne Hall] & Hend & ->).
    exists (x :: l), rest. split; [reflexivity|]. split; [|split].
    + split; [discriminate | simpl; rewrite Hx; exact Hall].
    + exact Hend.
    + simpl rev. rewrite <- app_assoc. reflexivity.
  - injection H as <-. exists [x], s. split; [reflexivity|]. split; [|split].
    + split; [discriminate | simpl; rewrite Hx; reflexivity].
    + destruct s as [|y s']; [exact I|]. simpl in G. simpl.
      destruct (cls y) eqn:Hy; [|reflexivity].
      destruct (greedy cls _ (y :: x :: taken) s'); discriminate.
    + reflexivity.
Qed.

(** The classes that follow one another in the pattern are disjoint. *)
Lemma space_not_digit c : is_space c = true -> is_digit c = false.
Proof. destruct c; vm_compute; intros H; first [reflexivity | discriminate H]. Qed.

Lemma space_not_hex c : is_space c = true -> is_hex c = false.
Proof. destruct c; vm_compute; intros H; first [reflexivity | discriminate H]. Qed.

Lemma symbol_not_space c : is_symbol c = true -> is_space c = false.
Proof. destruct c; vm_compute; intros H; first [reflexivity | discriminate H]. Qed.

Lemma run_ends_run cls cls' l rest :
  (forall c, cls' c = true -> cls c = false) ->
  run cls' l -> ends_run cls (l ++ rest).
Proof.
  intros D [Hne Hall]. destruct l as [|c l]; [congruence|].
  simpl in Hall. apply andb_true_iff in Hall as [Hc _]. apply D, Hc.
Qed.

(** The pattern matches at the start of [s] exactly when a frame is there,
    and it captures the symbol of the frame. *)
Lemma frame_match_here s symbol rest :
  frame_at s symbol rest ->
  match_here STACK_TRACE_RE [] s = Some ([symbol], rest).
Proof.
  intros (number & ws1 & address & ws2 & -> & Hn & Hw1 & Ha & Hw2 & Hs & Hend).
  unfold STACK_TRACE_RE. cbn [match_here Byte.eqb]. simpl Byte.eqb.
  apply greedy_longest; [exact Hn | |].
  { apply run_ends_run with (cls' := is_space); [exact space_not_digit | exact Hw1]. }
  apply greedy_longest; [exact Hw1 | exact eq_refl |].
  simpl Byte.eqb. cbv iota.
  apply greedy_longest; [exact Ha | |].
  { apply run_ends_run with (cls' := is_space); [exact space_not_hex | exact Hw2]. }
  apply greedy_longest; [exact Hw2 | |].
  { apply run_ends_run with (cls' := is_symbol); [exact symbol_not_space | exact Hs]. }
  apply greedy_longest; [exact Hs | exact Hend |].
  reflexivity.
Qed.

Lemma match_here_frame s groups rest :
  match_here STACK_TRACE_RE [] s = Some (groups, rest) ->
  exists symbol, groups = [symbol] /\ frame_at s symbol rest.
Proof.
  unfold STACK_TRACE_RE. cbn [match_here]. intros H.
  destruct s as [|c s]; [discriminate|].
  destruct (Byte.eqb c x23) eqn:Ec; [|discriminate].
  apply Byte.byte_dec_bl in Ec. subst c.
  apply greedy_sound in H as (number & r1 & -> & Hn & H).
  apply greedy_sound in H as (ws1 & r2 & -> & Hw1 & H).
  destruct r2 as [|c0 r2]; [discriminate|].
  destruct (Byte.eqb c0 x30) eqn:E0; [|discriminate].
  apply Byte.byte_dec_bl in E0. subst c0.
  destruct r2 as [|c1 r2]; [discriminate|].
  destruct (Byte.eqb c1 x78) eqn:E1; [|discriminate].
  apply Byte.byte_dec_bl in E1. subst c1.
  apply greedy_sound in H as (address & r4 & -> & Ha & H).
  apply greedy_sound in H as (ws2 & r5 & -> & Hw2 & H).
  apply (greedy_last is_symbol (fun l rest0 => (rev [l], rest0))) in H
    as (symbol & rest' & -> & Hs & Hend & E).
  injection E as -> ->.
  exists symbol. split; [reflexivity|].
  exists number, ws1, address, ws2. repeat split; try assumption;
    try apply Hn; try apply Hw1; try apply Ha; try apply Hw2; try apply Hs.
Qed.

Lemma findall_from_skip p mid : forall rest,
  findall_from p (List.length mid) (mid ++ rest) = findall_from p 0 rest.
Proof.
  induction mid as [|m mid IH]; intros rest; [reflexivity|].
  simpl. apply IH.
Qed.

Lemma strace_of_frame s symbol rest :
  frame_at s symbol rest -> strace_of s = symbol :: strace_of rest.
Proof.
  intros F. pose proof (frame_match_here s symbol rest F) as M.
  destruct F as (number & ws1 & address & ws2 & -> & _).
  unfold strace_of, findall. cbn [findall_from]. rewrite M. cbn [hd].
  f_equal.
  replace (number ++ ws1 ++ x30 :: x78 :: address ++ ws2 ++ symbol ++ rest)
    with ((number ++ ws1 ++ x30 :: x78 :: address ++ ws2 ++ symbol) ++ rest).
  - rewrite length_app, Nat.add_sub. apply findall_from_skip.
  - repeat (rewrite <- ?app_assoc; simpl). reflexivity.
Qed.

Lemma strace_of_no_frame c s :
  (forall symbol rest, ~ frame_at (c :: s) symbol rest) ->
  strace_of (c :: s) = strace_of s.
Proof.
  intros N. unfold strace_of, findall. cbn [findall_from].
  destruct (match_here STACK_TRACE_RE [] (c :: s)) as [[groups rest]|] eqn:M;
    [|reflexivity].
  apply match_here_frame in M as (symbol & _ & F). destruct (N _ _ F).
Qed.

(** C7, as stated, fails: the symbol stands on the line after the frame
    number and the address, so that no line has the shape of a frame, yet
    the analyzer takes the symbol as a frame of the stack trace. *)
Lemma symbol_on_next_line :
  let text := b "#0 0x1234" ++ [x0a] ++ b "foo::bar" in
  lines_of text = [b "#0 0x1234"; b "foo::bar"]
  /\ line_signature text = []
  /\ strace_of text = [b "foo::bar"].
Proof. repeat split. Qed.

(** C7, amended. The stack trace of a diagnostic is the sequence of the
    symbols of the frames found from left to right in the whole text, each
    search going on after the frame found before: a frame is the mark, a
    decimal number, white space, [0x] and lower-case hexadecimal digits,
    white space, and the longest run of letters, digits, underscore, colon
    and tilde; the white space may hold line breaks, so that a frame may
    run over several lines and one line may hold several frames. The two
    lines of the scenario give the two symbols. *)
Theorem strace_of_frames :
  strace_of [] = []
  /\ (forall s symbol rest,
        frame_at s symbol rest -> strace_of s = symbol :: strace_of rest)
  /\ (forall c s,
        (forall symbol rest, ~ frame_at (c :: s) symbol rest) ->
        strace_of (c :: s) = strace_of s)
  /\ strace_of (b "#0 0x1234 foo::bar" ++ [x0a] ++ b "#1 0x5678 baz")
     = [b "foo::bar"; b "baz"].
Proof.
  split; [reflexivity|]. split; [exact strace_of_frame|].
  split; [exact strace_of_no_frame | reflexivity].
Qed.

Lemma strace_of_frames_witness :
  strace_of (b "#0 0x1234 foo::bar" ++ [x0a] ++ b "#1 0x5678 baz")
  = b "foo::bar" :: strace_of ([x0a] ++ b "#1 0x5678 baz").
Proof.
  apply (proj1 (proj2 strace_of_frames)).
  exists (b "0"), (b " "), (b "1234"), (b " ").
  repeat split; discriminate.
Defined.

End RegexFacts.

(** * Properties of the scheduler *)

Section HistoryFacts.

Import Scheduler.

Lemma launched_app h h' : launched (h ++ h') = launched h ++ launched h'.
Proof. apply flat_map_app. Qed.

Lemma finished_app h h' : finished (h ++ h') = finished h ++ finished h'.
Proof. apply flat_map_app. Qed.

Lemma launched_Done ds : launched (map Done ds) = [].
Proof. induction ds; simpl; auto. Qed.

Lemma finished_Done ds : finished (map Done ds) = ds.
Proof. induction ds; simpl; congruence. Qed.

Lemma firstn_snoc {A} (h : list A) e n :
  (n <= List.length h /\ firstn n (h ++ [e]) = firstn n h)
  \/ (List.length h < n /\ firstn n (h ++ [e]) = h ++ [e]).
Proof.
  rewrite firstn_app. destruct (le_lt_dec n (List.length h)) as [L|L].
  - left. split; [exact L|].
    replace (n - List.length h) with 0 by lia. simpl. apply app_nil_r.
  - right. split; [exact L|].
    rewrite firstn_all2 by lia.
    destruct (n - List.length h) eqn:E; [lia | simpl; rewrite firstn_nil; reflexivity].
Qed.

Lemma never_above_snoc cap h e :
  never_above cap h ->
  List.length (finished (h ++ [e])) <= List.length (launched (h ++ [e])) ->
  outstanding (h ++ [e]) <= cap ->
  never_above cap (h ++ [e]).
Proof.
  intros H H1 H2 n.
  destruct (firstn_snoc h e n) as [[_ ->]|[_ ->]]; [apply H | auto].
Qed.

Lemma admitted_below_snoc cap h e :
  admitted_below cap h ->
  match e with Launch _ => outstanding h < cap | Done _ => True end ->
  admitted_below cap (h ++ [e]).
Proof.
  intros H He n t Hn.
  destruct (le_lt_dec (List.length h) n) as [L|L].
  - rewrite nth_error_app2 in Hn by exact L.
    destruct (n - List.length h) as [|k] eqn:E.
    + injection Hn as ->. assert (n = List.length h) as -> by lia.
      rewrite firstn_app, firstn_all, Nat.sub_diag. simpl.
      rewrite app_nil_r. exact He.
    + destruct k; discriminate Hn.
  - rewrite nth_error_app1 in Hn by exact L.
    destruct (firstn_snoc h e n) as [[_ ->]|[L' _]]; [|lia].
    apply (H n t Hn).
Qed.

(** The tasks a wait reports, put at the end of the history. *)
Lemma never_above_Done cap ds : forall h,
  never_above cap h ->
  List.length (finished h) + List.length ds <= List.length (launched h) ->
  never_above cap (h ++ map Done ds).
Proof.
  induction ds as [|d ds IH]; intros h H L.
  - simpl. rewrite app_nil_r. exact H.
  - change (h ++ map Done (d :: ds)) with (h ++ [Done d] ++ map Done ds).
    rewrite app_assoc. simpl in L.
    pose proof (H (List.length h)) as [_ Hc]. rewrite firstn_all in Hc.
    unfold outstanding in Hc.
    apply IH.
    + apply never_above_snoc; [exact H | |];
        unfold outstanding; rewrite ?launched_app, ?finished_app, ?length_app;
        simpl; lia.
    + rewrite launched_app, finished_app, !length_app. simpl. lia.
Qed.

Lemma admitted_below_Done cap ds : forall h,
  admitted_below cap h -> admitted_below cap (h ++ map Done ds).
Proof.
  induction ds as [|d ds IH]; intros h H.
  - simpl. rewrite app_nil_r. exact H.
  - change (h ++ map Done (d :: ds)) with (h ++ [Done d] ++ map Done ds).
    rewrite app_assoc. apply IH, admitted_below_snoc; [exact H | exact I].
Qed.

End HistoryFacts.

Section WaitFacts.

Import Scheduler.

Lemma filter_split {A} (f : A -> bool) (l : list A) :
  Permutation (filter f l ++ filter (fun x => negb (f x)) l) l.
Proof.
  induction l as [|a l IH]; simpl; [constructor|].
  destruct (f a); simpl.
  - constructor. exact IH.
  - apply Permutation_sym, Permutation_cons_app, Permutation_sym, IH.
Qed.

(** A wait on a non-empty set reports at least one task; those it reports
    and those it leaves are the set. *)
Lemma wait_first_completed_spec c fs done pending :
  wait_first_completed c fs = (done, pending) ->
  Permutation (done ++ pending) fs
  /\ (fs <> [] -> done <> []).
Proof.
  unfold wait_first_completed. rewrite partition_as_filter.
  intros E. injection E as <- <-. split; [apply filter_split|].
  intros Hne.
  assert (Hk : first c mod List.length fs < List.length fs).
  { apply Nat.mod_upper_bound. destruct fs; [congruence | discriminate]. }
  destruct fs as [|t0 fs']; [congruence|].
  set (fs := t0 :: fs') in *.
  set (u := nth (first c mod List.length fs) fs t0).
  assert (Hin : In u fs) by (apply nth_In; exact Hk).
  assert (Hd : is_done c fs u = true).
  { unfold is_done. rewrite (nth_indep fs u t0 Hk). fold u.
    rewrite Nat.eqb_refl. reflexivity. }
  intros E.
  assert (In u (filter (is_done c fs) fs)) as Hf
    by (apply filter_In; split; assumption).
  rewrite E in Hf. destruct Hf.
Qed.

End WaitFacts.

Section RunFacts.

Import Scheduler.

Variable toolchain : string -> option Probe.completed.
Variable exceeds : nat -> nat -> bool.
Variable cap : nat.

Lemma history_wait st done pending :
  history (State pending (i st) (l st) (created st)
                 (rev (map Done done) ++ trace st))
  = history st ++ map Done done.
Proof. unfold history. simpl. rewrite rev_app_distr, rev_involutive. reflexivity. Qed.

Lemma history_launch tr st :
  history (launch tr st) = history st ++ [Launch (Task (created st) tr (i st))].
Proof. reflexivity. Qed.

(** The loop over [done] changes the counters only. *)
Lemma collect_inert done : forall st,
  let same st' :=
    tasks st' = tasks st /\ trace st' = trace st /\ created st' = created st in
  stops same same (collect toolchain exceeds done st).
Proof.
  induction done as [|t done IH]; intros st same; simpl.
  - repeat split.
  - destruct (toolchain (triple t)); simpl; [|repeat split].
    specialize (IH (State (tasks st) (S (i st))
                          (if exceeds (S (i st)) (l st) then S (i st) else l st)
                          (created st) (trace st))).
    simpl in IH. exact IH.
Qed.

Lemma bounded_ext st st' :
  tasks st' = tasks st -> trace st' = trace st ->
  bounded cap st -> bounded cap st'.
Proof. unfold bounded, history. intros -> ->. auto. Qed.

Lemma bounded_wait st done pending :
  bounded cap st -> Permutation (done ++ pending) (tasks st) ->
  bounded cap (State pending (i st) (l st) (created st)
                     (rev (map Done done) ++ trace st)).
Proof.
  intros (N & A & C & L) P. apply Permutation_length in P.
  rewrite length_app in P.
  unfold bounded. rewrite history_wait. simpl tasks.
  split; [|split; [|split]].
  - apply never_above_Done; [exact N | lia].
  - apply admitted_below_Done, A.
  - rewrite launched_app, finished_app, launched_Done, finished_Done,
      app_nil_r, length_app. lia.
  - lia.
Qed.

Lemma bounded_launch tr st :
  bounded cap st -> List.length (tasks st) < cap -> bounded cap (launch tr st).
Proof.
  intros (N & A & C & L) Hlt. unfold bounded. rewrite history_launch.
  split; [|split; [|split]].
  - apply never_above_snoc; [exact N | |]; unfold outstanding;
      rewrite launched_app, finished_app; simpl;
      rewrite ?length_app, ?app_nil_r; simpl; lia.
  - apply admitted_below_snoc; [exact A|]. unfold outstanding. lia.
  - rewrite launched_app, finished_app. simpl.
    rewrite ?length_app, ?app_nil_r. simpl. lia.
  - simpl. lia.
Qed.

(** The wait loop keeps the invariant and leaves room for one more task. *)
Lemma make_room_bounded fuel : forall sched st,
  List.length (tasks st) < fuel -> bounded cap st ->
  stops (fun r => bounded cap (fst r) /\ List.length (tasks (fst r)) < cap)
        (bounded cap)
        (make_room toolchain exceeds cap fuel sched st).
Proof.
  induction fuel as [|fuel IH]; intros sched st Hf B; [lia|].
  cbn [make_room].
  destruct (Nat.leb cap (List.length (tasks st))) eqn:E.
  - destruct (tasks st) as [|t ts] eqn:T; [exact B|]. rewrite <- T.
    destruct (wait_first_completed _ (tasks st)) as [done pending] eqn:W.
    apply wait_first_completed_spec in W as [P Hne].
    assert (Hd : done <> []) by (apply Hne; rewrite T; discriminate).
    pose proof (bounded_wait st done pending B P) as B1.
    set (st1 := State pending (i st) (l st) (created st)
                      (rev (map Done done) ++ trace st)) in *.
    pose proof (collect_inert done st1) as C. cbv zeta in C.
    destruct (collect toolchain exceeds done st1) as [st2|e st2|];
      cbn [stops] in C; [| |contradiction].
    + destruct C as (Ct & Cr & _). apply IH.
      * rewrite Ct. simpl. apply Permutation_length in P. rewrite length_app in P.
        rewrite T in P. destruct done; [congruence | simpl in P, Hf; lia].
      * apply (bounded_ext st1 st2 Ct Cr B1).
    + destruct C as (Ct & Cr & _). apply (bounded_ext st1 st2 Ct Cr B1).
  - apply Nat.leb_gt in E. simpl. split; [exact B | exact E].
Qed.

Lemma feed_bounded triples : forall sched st,
  bounded cap st ->
  stops (bounded cap) (bounded cap) (feed toolchain exceeds cap triples sched st).
Proof.
  induction triples as [|tr triples IH]; intros sched st B; [exact B|].
  cbn [feed].
  pose proof (make_room_bounded _ sched st (Nat.lt_succ_diag_r _) B) as M.
  destruct (make_room toolchain exceeds cap _ sched st) as [[st1 sched1]|e st1|];
    simpl in M; [|exact M|contradiction].
  destruct M as [B1 L1]. apply IH, bounded_launch; assumption.
Qed.

Lemma init_bounded : bounded cap init.
Proof.
  unfold bounded, init, history. simpl. split; [|split; [|split]].
  - intros n. rewrite firstn_nil. unfold outstanding. simpl. lia.
  - intros n t H. destruct n; discriminate H.
  - reflexivity.
  - lia.
Qed.

Lemma schedule_bounded triples sched :
  let within st :=
    never_above cap (history st) /\ admitted_below cap (history st) in
  stops within within (schedule toolchain exceeds cap triples sched).
Proof.
  intros within. unfold schedule.
  pose proof (feed_bounded triples sched init init_bounded) as F.
  destruct (feed toolchain exceeds cap triples sched init) as [st|e st|];
    simpl in F; [| |contradiction].
  - unfold drain. destruct (tasks st) as [|t ts] eqn:T.
    + simpl. destruct F as (N & A & _). split; assumption.
    + rewrite <- T. cbn [stops].
      assert (P : Permutation (tasks st ++ []) (tasks st))
        by (rewrite app_nil_r; reflexivity).
      destruct (bounded_wait st (tasks st) [] F P) as (N & A & _).
      rewrite history_wait in N, A.
      unfold within. rewrite (history_wait st (tasks st) (stale st)).
      split; assumption.
  - simpl. destruct F as (N & A & _). split; assumption.
Qed.

End RunFacts.

Section RunOk.

Import Scheduler.

Variable toolchain : string -> option Probe.completed.
Variable exceeds : nat -> nat -> bool.
Variable cap : nat.
Hypothesis cap_positive : 1 <= cap.

Lemma collect_ok done : forall st,
  (forall t, In t done -> toolchain (triple t) <> None) ->
  exists st', collect toolchain exceeds done st = Ok st'
    /\ tasks st' = tasks st /\ trace st' = trace st /\ created st' = created st.
Proof.
  induction done as [|t done IH]; intros st H; simpl.
  - exists st. repeat split.
  - destruct (toolchain (triple t)) eqn:E.
    + destruct (IH (State (tasks st) (S (i st))
                          (if exceeds (S (i st)) (l st) then S (i st) else l st)
                          (created st) (trace st)))
        as (st' & -> & Ht & Hr & Hc).
      * intros u Hu. apply H. right. exact Hu.
      * exists st'. repeat split; assumption.
    + destruct (H t (or_introl eq_refl) E).
Qed.

Lemma accounted_ext consumed st st' :
  tasks st' = tasks st -> trace st' = trace st -> created st' = created st ->
  accounted consumed st -> accounted consumed st'.
Proof. unfold accounted, history. intros -> -> ->. auto. Qed.

Lemma accounted_wait consumed st done pending :
  accounted consumed st -> Permutation (done ++ pending) (tasks st) ->
  accounted consumed (State pending (i st) (l st) (created st)
                            (rev (map Done done) ++ trace st)).
Proof.
  intros (P & T & N) Pd. unfold accounted. rewrite history_wait. simpl.
  rewrite launched_app, finished_app, launched_Done, finished_Done, app_nil_r.
  split; [|split; assumption].
  rewrite <- app_assoc. rewrite <- P. apply Permutation_app_head, Pd.
Qed.

Lemma accounted_launch consumed tr st :
  accounted consumed st -> accounted (consumed ++ [tr]) (launch tr st).
Proof.
  intros (P & T & N). unfold accounted. rewrite history_launch.
  rewrite launched_app, finished_app.
  change (launched [Launch (Task (created st) tr (i st))])
    with [Task (created st) tr (i st)].
  change (finished [Launch (Task (created st) tr (i st))]) with (@nil task).
  change (tasks (launch tr st)) with (Task (created st) tr (i st) :: tasks st).
  change (created (launch tr st)) with (S (created st)).
  rewrite app_nil_r. split; [|split].
  - rewrite <- P. apply Permutation_sym.
    rewrite <- app_assoc. apply Permutation_app_head.
    apply Permutation_sym, Permutation_cons_append.
  - rewrite map_app, T. reflexivity.
  - rewrite map_app, N, seq_S. reflexivity.
Qed.

Lemma make_room_ok fuel : forall sched st consumed,
  List.length (tasks st) < fuel ->
  accounted consumed st ->
  (forall tr, In tr consumed -> toolchain tr <> None) ->
  exists st' sched',
    make_room toolchain exceeds cap fuel sched st = Ok (st', sched')
    /\ accounted consumed st'.
Proof.
  induction fuel as [|fuel IH]; intros sched st consumed Hf A Sp; [lia|].
  cbn [make_room].
  destruct (Nat.leb cap (List.length (tasks st))) eqn:E; [|eauto].
  destruct (tasks st) as [|t ts] eqn:T.
  { apply Nat.leb_le in E. simpl in E. lia. }
  rewrite <- T.
  destruct (wait_first_completed _ (tasks st)) as [done pending] eqn:W.
  apply wait_first_completed_spec in W as [P Hne].
  assert (Hd : done <> []) by (apply Hne; rewrite T; discriminate).
  set (st1 := State pending (i st) (l st) (created st)
                    (rev (map Done done) ++ trace st)).
  destruct (collect_ok done st1) as (st2 & -> & Ct & Cr & Cc).
  { intros u Hu. apply Sp. destruct A as (PA & TA & _). rewrite <- TA.
    apply in_map. apply (Permutation_in _ PA). apply in_or_app. right.
    apply (Permutation_in _ P). apply in_or_app. left. exact Hu. }
  apply IH; [| |exact Sp].
  - rewrite Ct. simpl. apply Permutation_length in P.
    rewrite length_app, T in P.
    destruct done; [congruence | simpl in P, Hf; lia].
  - apply (accounted_ext consumed st1 st2 Ct Cr Cc).
    apply accounted_wait; assumption.
Qed.

Lemma feed_ok triples : forall sched st consumed,
  accounted consumed st ->
  (forall tr, In tr (consumed ++ triples) -> toolchain tr <> None) ->
  exists st', feed toolchain exceeds cap triples sched st = Ok st'
    /\ accounted (consumed ++ triples) st'
    /\ (triples <> [] -> tasks st' <> []).
Proof.
  induction triples as [|tr triples IH]; intros sched st consumed A Sp.
  - exists st. rewrite app_nil_r.
    split; [reflexivity | split; [exact A | congruence]].
  - cbn [feed].
    destruct (make_room_ok (S (List.length (tasks st))) sched st consumed)
      as (st1 & sched1 & -> & A1); [lia | exact A | |].
    { intros x Hx. apply Sp, in_or_app. left. exact Hx. }
    destruct (IH sched1 (launch tr st1) (consumed ++ [tr])) as (st' & F & A' & N).
    + apply accounted_launch, A1.
    + rewrite <- app_assoc. exact Sp.
    + exists st'. rewrite <- app_assoc in A'. split; [exact F|].
      split; [exact A'|]. intros _.
      destruct triples as [|tr' triples'].
      * simpl in F. injection F as <-. discriminate.
      * apply N. discriminate.
Qed.

(** With room for one task at least, a triple at least and a toolchain
    that can be spawned, the run comes to the end of the last wait: a task
    was created for every triple, in order, and every task was seen done
    once. *)
Lemma schedule_ok triples sched :
  triples <> [] ->
  (forall tr, In tr triples -> toolchain tr <> None) ->
  exists st, schedule toolchain exceeds cap triples sched = Ok st
    /\ map triple (launched (history st)) = triples
    /\ NoDup (map tid (launched (history st)))
    /\ Permutation (finished (history st)) (launched (history st))
    /\ outstanding (history st) = 0.
Proof.
  intros Hne Sp. unfold schedule.
  destruct (feed_ok triples sched init [])
    as (st & -> & (P & T & N) & Ht).
  - unfold accounted, init, history. simpl. repeat split. constructor.
  - exact Sp.
  - unfold drain. specialize (Ht Hne).
    destruct (tasks st) as [|t ts] eqn:E; [congruence|]. rewrite <- E in *.
    eexists. split; [reflexivity|].
    rewrite (history_wait st (tasks st) (stale st)).
    rewrite launched_app, finished_app, launched_Done, finished_Done, app_nil_r.
    simpl in T. split; [exact T|]. split; [|split].
    + rewrite N. apply seq_NoDup.
    + exact P.
    + unfold outstanding.
      rewrite launched_app, finished_app, launched_Done, finished_Done,
        app_nil_r.
      rewrite (Permutation_length P). apply Nat.sub_diag.
Qed.

End RunOk.

Section SchedulerClaims.

Import Scheduler.
Local Open Scope string_scope.
Local Open Scope list_scope.

(** C5. Whatever the toolchain does, whatever the event loop answers and
    however the run stops, after every prefix of the events at most [cap]
    probes are outstanding, and every probe is launched at a moment when
    fewer than [cap] are; the wait loop of the model never reaches its
    bound. [TASK_COUNT] is the cap of [main]. *)
Theorem outstanding_never_above_cap
    (toolchain : string -> option Probe.completed)
    (exceeds : nat -> nat -> bool) (cap : nat)
    (triples : list string) (sched : list completion) :
  let r := schedule toolchain exceeds cap triples sched in
  never_above cap (events_of r)
  /\ admitted_below cap (events_of r)
  /\ r <> OutOfFuel
  /\ TASK_COUNT = 32.
Proof.
  intros r. pose proof (schedule_bounded toolchain exceeds cap triples sched) as H.
  cbv zeta in H. fold r in H.
  destruct r as [st|e st|]; simpl in H; [| |contradiction];
    destruct H as [N A];
    (split; [exact N | split; [exact A | split; [discriminate | reflexivity]]]).
Qed.

(** The scenario of the specification: a cap of two and five triples. *)
Example two_at_a_time :
  let toolchain := fun _ : string => Some (Probe.Completed [] [] (Some 1%Z)) in
  let r := schedule toolchain (fun _ _ => false) 2 ["a"; "b"; "c"; "d"; "e"]
                    [Completion 1 []; Completion 0 [false; true]] in
  map outstanding
      (map (fun n => firstn n (events_of r)) (seq 0 11))
  = [0; 1; 2; 1; 2; 1; 0; 1; 2; 1; 0].
Proof. reflexivity. Qed.

(** With no triple at all the last wait is given an empty set and raises.
    No run of [main] is in this case: the generator yields the product of
    four catalogs, none of them empty. *)
Lemma no_triple_raises :
  schedule (fun _ => Some (Probe.Completed [] [] (Some 1%Z)))
           (fun _ _ => false) TASK_COUNT [] []
  = Raise ValueError_empty_set init.
Proof. reflexivity. Qed.

(** C4, amended. For every sequence of one triple at least, a cap of one
    at least and a toolchain whose child process, on each triple, can be
    spawned and ends ([toolchain tr] is what it has left by then; the code
    sets no timeout, so a child that never ends is not covered), the run
    comes to the end of the last wait: one task was created for every
    triple, in order, every task was seen done exactly once, and none is
    outstanding when the run is complete. *)
Theorem every_probe_observed_once
    (toolchain : string -> option Probe.completed)
    (exceeds : nat -> nat -> bool) (cap : nat)
    (triples : list string) (sched : list completion) :
  1 <= cap ->
  triples <> [] ->
  (forall tr, In tr triples -> toolchain tr <> None) ->
  exists st, schedule toolchain exceeds cap triples sched = Ok st
    /\ map triple (launched (history st)) = triples
    /\ NoDup (map tid (launched (history st)))
    /\ Permutation (finished (history st)) (launched (history st))
    /\ outstanding (history st) = 0.
Proof. intros Hc Hne Hs. apply schedule_ok; assumption. Qed.

Lemma every_probe_observed_once_witness :
  let toolchain := fun _ : string => Some (Probe.Completed [] [] (Some 1%Z)) in
  exists st,
    schedule toolchain (fun _ _ => false) 2 ["a"; "b"; "c"]
             [Completion 1 [true]] = Ok st
    /\ map triple (launched (history st)) = ["a"; "b"; "c"]
    /\ NoDup (map tid (launched (history st)))
    /\ Permutation (finished (history st)) (launched (history st))
    /\ outstanding (history st) = 0.
Proof.
  intros toolchain.
  apply (every_probe_observed_once toolchain (fun _ _ => false) 2
           ["a"; "b"; "c"] [Completion 1 [true]]).
  - lia.
  - discriminate.
  - intros tr _. discriminate.
Defined.

Lemma product4_nonempty {A} (a b c d : A) l1 l2 l3 l4 :
  Triples.product4 (a :: l1) (b :: l2) (c :: l3) (d :: l4) <> [].
Proof. discriminate. Qed.

Lemma generate_triples_nonempty : Triples.generate_triples <> [].
Proof.
  unfold Triples.generate_triples, Triples.generate_from.
  intros E. apply map_eq_nil in E. revert E.
  apply product4_nonempty.
Qed.

(** C2. The file is written to [/dev/shm/test/<uuid>.c] and the removal is
    given the bare name [<uuid>.c]: in a run started in [/root], with a
    toolchain that rejects every triple, the scheduler drains (no probe
    is outstanding), the removal then raises [FileNotFoundError] on
    [/root/<uuid>.c], the file written at the start is still there and the
    exit code is 1. Started in
    [/dev/shm/test] the same run removes the file and exits with code 0. *)
Theorem tempfile_left_behind (exceeds : nat -> nat -> bool)
    (sched : list completion) :
  let toolchain := fun _ : string => Some (Probe.Completed [] [] (Some 1%Z)) in
  let uuid := "6fa459ea-ee8a-11ec-a2d4-0242ac120002" in
  let run cwd :=
    main toolchain exceeds uuid cwd [] Triples.generate_triples sched in
  (exists st,
     run "/root"
     = Uncaught
         (FileNotFoundError "/root/6fa459ea-ee8a-11ec-a2d4-0242ac120002.c")
         [("/dev/shm/test/6fa459ea-ee8a-11ec-a2d4-0242ac120002.c",
           "int main(){return 1;}")] st
     /\ outstanding (history st) = 0)
  /\ exit_code (run "/root") = Some 1%Z
  /\ exit_code (run "/dev/shm/test") = Some 0%Z
  /\ final_fs (run "/dev/shm/test") = Some [].
Proof.
  intros toolchain uuid run. unfold run, main.
  destruct (schedule_ok toolchain exceeds TASK_COUNT
              (ltac:(unfold TASK_COUNT; lia))
              Triples.generate_triples sched generate_triples_nonempty)
    as (st & -> & _ & _ & _ & Hout).
  { intros tr _. discriminate. }
  split; [exists st; split; [reflexivity | exact Hout]|]. repeat split.
Qed.

End SchedulerClaims.

(** * More on the triple generator: what it yields, and how many *)

Section ProductFacts.

Import Triples.

Lemma in_product4 {A} (l1 l2 l3 l4 : list A) a b c d :
  In (a, b, c, d) (product4 l1 l2 l3 l4)
  <-> In a l1 /\ In b l2 /\ In c l3 /\ In d l4.
Proof.
  unfold product4. rewrite in_flat_map. split.
  - intros (a' & Ha & H). apply in_flat_map in H as (b' & Hb & H).
    apply in_flat_map in H as (c' & Hc & H).
    apply in_map_iff in H as (d' & E & Hd). injection E as -> -> -> ->.
    auto.
  - intros (Ha & Hb & Hc & Hd). exists a. split; [exact Ha|].
    apply in_flat_map. exists b. split; [exact Hb|].
    apply in_flat_map. exists c. split; [exact Hc|].
    apply in_map. exact Hd.
Qed.

Lemma length_flat_map_const {A B} (g : A -> list B) n l :
  (forall x, In x l -> List.length (g x) = n) ->
  List.length (flat_map g l) = List.length l * n.
Proof.
  induction l as [|x l IH]; intros H; simpl; [reflexivity|].
  rewrite length_app, H, IH; [reflexivity | | left; reflexivity].
  intros y Hy. apply H. right. exact Hy.
Qed.

Lemma length_product4 {A} (l1 l2 l3 l4 : list A) :
  List.length (product4 l1 l2 l3 l4)
  = List.length l1 * (List.length l2 * (List.length l3 * List.length l4)).
Proof.
  unfold product4.
  apply length_flat_map_const. intros a _.
  apply length_flat_map_const. intros b _.
  apply length_flat_map_const. intros c _.
  apply length_map.
Qed.

Lemma NoDup_flat_map {A B} (g : A -> list B) l :
  NoDup l ->
  (forall x, In x l -> NoDup (g x)) ->
  (forall x y b, In x l -> In y l -> In b (g x) -> In b (g y) -> x = y) ->
  NoDup (flat_map g l).
Proof.
  intros N. induction N as [|x l Hx N IH]; intros Hg Hd; simpl; [constructor|].
  apply NoDup_app.
  - apply Hg. left. reflexivity.
  - apply IH.
    + intros y Hy. apply Hg. right. exact Hy.
    + intros y z b Hy Hz. apply Hd; right; assumption.
  - intros b Hb Hb'. apply in_flat_map in Hb' as (y & Hy & Hby).
    apply Hx. rewrite (Hd x y b); auto; [left; reflexivity | right; exact Hy].
Qed.

Lemma NoDup_product4 {A} (l1 l2 l3 l4 : list A) :
  NoDup l1 -> NoDup l2 -> NoDup l3 -> NoDup l4 ->
  NoDup (product4 l1 l2 l3 l4).
Proof.
  intros N1 N2 N3 N4. unfold product4.
  apply NoDup_flat_map; [exact N1 | |].
  - intros a _. apply NoDup_flat_map; [exact N2 | |].
    + intros b _. apply NoDup_flat_map; [exact N3 | |].
      * intros c _. apply Finite.Injective_map_NoDup_in; [|exact N4].
        intros d d' _ _ E. injection E as ->. reflexivity.
      * intros c c' t _ _ H H'.
        apply in_map_iff in H as (d & <- & _).
        apply in_map_iff in H' as (d' & E & _). injection E as -> _.
        reflexivity.
    + intros b b' t _ _ H H'.
      apply in_flat_map in H as (c & _ & H).
      apply in_map_iff in H as (d & <- & _).
      apply in_flat_map in H' as (c' & _ & H').
      apply in_map_iff in H' as (d' & E & _). injection E as -> _ _.
      reflexivity.
  - intros a a' t _ _ H H'.
    apply in_flat_map in H as (b & _ & H).
    apply in_flat_map in H as (c & _ & H).
    apply in_map_iff in H as (d & <- & _).
    apply in_flat_map in H' as (b' & _ & H').
    apply in_flat_map in H' as (c' & _ & H').
    apply in_map_iff in H' as (d' & E & _). injection E as -> _ _ _.
    reflexivity.
Qed.

End ProductFacts.

Section DecodeFacts.

Import Triples.
Local Open Scope string_scope.

Lemma split_sep_part p : forall r,
  has_sep p = false ->
  split_sep (p ++ String SEP r) = p :: split_sep r.
Proof.
  induction p as [|c p IH]; intros r H; simpl.
  - reflexivity.
  - simpl in H. apply orb_false_iff in H as [Hc Hp].
    rewrite Hc, (IH r Hp). reflexivity.
Qed.

Lemma split_sep_single p : has_sep p = false -> split_sep p = [p].
Proof.
  induction p as [|c p IH]; intros H; simpl; [reflexivity|].
  simpl in H. apply orb_false_iff in H as [Hc Hp].
  rewrite Hc, (IH Hp). reflexivity.
Qed.

(** Cutting a joined text at the separator gives the parts back. *)
Lemma split_sep_join parts :
  Forall (fun p => has_sep p = false /\ p <> "") parts ->
  filter truthy (split_sep (String.concat "-" parts)) = parts.
Proof.
  intros H. induction H as [|p ps [Hs Hne] H IH]; [reflexivity|].
  assert (Tp : truthy p = true) by (destruct p; [congruence | reflexivity]).
  destruct ps as [|q qs].
  - simpl. rewrite (split_sep_single p Hs). simpl. rewrite Tp. reflexivity.
  - change (String.concat "-" (p :: q :: qs))
      with (p ++ String SEP (String.concat "-" (q :: qs))).
    rewrite (split_sep_part p _ Hs). cbn [filter]. rewrite Tp, IH.
    reflexivity.
Qed.

Lemma truthy_false s : truthy s = false -> s = "".
Proof. destruct s; [reflexivity | discriminate]. Qed.

Section Pick.

(** Any way of telling the axes apart will do. *)
Variable axis : string -> nat.
Variables arch vendor op_s environ : string.
Hypothesis axis_arch : truthy arch = true -> axis arch = 0.
Hypothesis axis_vendor : truthy vendor = true -> axis vendor = 1.
Hypothesis axis_op_s : truthy op_s = true -> axis op_s = 2.
Hypothesis axis_environ : truthy environ = true -> axis environ = 3.

Lemma pick_parts :
  let parts := filter truthy [arch; vendor; op_s; environ] in
  (pick axis 0 parts, pick axis 1 parts, pick axis 2 parts, pick axis 3 parts)
  = (arch, vendor, op_s, environ).
Proof.
  unfold pick. cbn [filter].
  destruct (truthy arch) eqn:Ta; destruct (truthy vendor) eqn:Tv;
    destruct (truthy op_s) eqn:To; destruct (truthy environ) eqn:Te;
    cbn [filter];
    try rewrite (axis_arch eq_refl); try rewrite (axis_vendor eq_refl);
    try rewrite (axis_op_s eq_refl); try rewrite (axis_environ eq_refl);
    cbn [Nat.eqb filter hd];
    try (apply truthy_false in Ta; rewrite Ta);
    try (apply truthy_false in Tv; rewrite Tv);
    try (apply truthy_false in To; rewrite To);
    try (apply truthy_false in Te; rewrite Te);
    reflexivity.
Qed.

End Pick.

End DecodeFacts.

Section GeneratorFacts.

Import Triples.
Local Open Scope string_scope.

(** The generator yields the triple of every element of the product of the
    four catalogs and nothing else, one triple for each element. *)
Theorem generate_from_product (l1 l2 l3 l4 : list string) :
  (forall t,
     In t (generate_from l1 l2 l3 l4)
     <-> exists arch vendor op_s environ,
           In arch l1 /\ In vendor l2 /\ In op_s l3 /\ In environ l4
           /\ t = triple_of arch vendor op_s environ)
  /\ List.length (generate_from l1 l2 l3 l4)
     = List.length l1 * (List.length l2 * (List.length l3 * List.length l4)).
Proof.
  unfold generate_from. split.
  - intros t. rewrite in_map_iff. split.
    + intros ([[[a v] o] e] & <- & H). apply in_product4 in H.
      exists a, v, o, e. tauto.
    + intros (a & v & o & e & Ha & Hv & Ho & He & ->).
      exists (a, v, o, e). split; [reflexivity|].
      apply in_product4. tauto.
  - rewrite length_map. apply length_product4.
Qed.

Lemma generate_from_product_witness :
  In "i386-apple-windows-eabi" generate_triples.
Proof.
  apply (proj1 (generate_from_product archs vendors oses envs)).
  exists "i386", "apple", "windows", "eabi".
  repeat split; simpl; repeat first [left; reflexivity | right].
Defined.

Lemma catalog_axes :
  forallb (fun x => negb (truthy x) || Nat.eqb (axis_of x) 0) archs
  && forallb (fun x => negb (truthy x) || Nat.eqb (axis_of x) 1) vendors
  && forallb (fun x => negb (truthy x) || Nat.eqb (axis_of x) 2) oses
  && forallb (fun x => negb (truthy x) || Nat.eqb (axis_of x) 3) envs = true.
Proof. vm_compute. reflexivity. Qed.

Lemma axis_of_catalog k l x :
  forallb (fun x => negb (truthy x) || Nat.eqb (axis_of x) k) l = true ->
  In x l -> truthy x = true -> axis_of x = k.
Proof.
  intros F Hin T. rewrite forallb_forall in F. specialize (F x Hin).
  rewrite T in F. simpl in F. apply Nat.eqb_eq, F.
Qed.

Lemma decode_catalog (arch vendor op_s environ : string) :
  In arch archs -> In vendor vendors -> In op_s oses -> In environ envs ->
  decode (triple_of arch vendor op_s environ) = (arch, vendor, op_s, environ).
Proof.
  intros Ha Hv Ho He. unfold decode.
  rewrite triple_of_join, split_sep_join.
  - pose proof catalog_axes as C.
    apply andb_true_iff in C as [C C4]. apply andb_true_iff in C as [C C3].
    apply andb_true_iff in C as [C1 C2].
    apply pick_parts.
    + apply (axis_of_catalog 0 archs arch C1 Ha).
    + apply (axis_of_catalog 1 vendors vendor C2 Hv).
    + apply (axis_of_catalog 2 oses op_s C3 Ho).
    + apply (axis_of_catalog 3 envs environ C4 He).
  - apply Forall_forall. intros p Hp. apply filter_In in Hp as [Hin Ht].
    split; [|apply truthy_true; exact Ht].
    apply sep_free_of_catalog. simpl in Hin.
    destruct Hin as [<-|[<-|[<-|[<-|[]]]]]; tauto.
Qed.

(** Reading a generated triple back gives the four values it was assembled
    from. *)
Theorem decode_triple_of (arch vendor op_s environ : string) :
  In arch archs -> In vendor vendors -> In op_s oses -> In environ envs ->
  decode (triple_of arch vendor op_s environ) = (arch, vendor, op_s, environ).
Proof. apply decode_catalog. Qed.

Lemma decode_triple_of_witness :
  decode (triple_of "i386" "" "windows" "") = ("i386", "", "windows", "").
Proof.
  apply decode_triple_of; simpl; repeat first [left; reflexivity | right].
Defined.

Lemma decode_generated (x y : string * string * string * string) :
  In x (product4 archs vendors oses envs) ->
  In y (product4 archs vendors oses envs) ->
  (let '(a, v, o, e) := x in triple_of a v o e)
  = (let '(a, v, o, e) := y in triple_of a v o e) ->
  x = y.
Proof.
  destruct x as [[[a v] o] e], y as [[[a' v'] o'] e'].
  intros Hx Hy E.
  apply in_product4 in Hx as (Ha & Hv & Ho & He).
  apply in_product4 in Hy as (Ha' & Hv' & Ho' & He').
  rewrite <- (decode_catalog a v o e), <- (decode_catalog a' v' o' e');
    try assumption.
  rewrite E. reflexivity.
Qed.

Lemma catalogs_NoDup :
  NoDup archs /\ NoDup vendors /\ NoDup oses /\ NoDup envs.
Proof.
  assert (E : nodup string_dec archs = archs
              /\ nodup string_dec vendors = vendors
              /\ nodup string_dec oses = oses
              /\ nodup string_dec envs = envs)
    by (vm_compute; repeat split).
  destruct E as (E1 & E2 & E3 & E4).
  rewrite <- E1, <- E2, <- E3, <- E4. repeat split; apply NoDup_nodup.
Qed.

(** The triples the generator yields are pairwise distinct, and there is
    one for each element of the product of the four catalogs. *)
Theorem generate_triples_distinct :
  NoDup generate_triples
  /\ List.length generate_triples = 108 * 16 * 40 * 37.
Proof.
  unfold generate_triples, generate_from. split.
  - destruct catalogs_NoDup as (N1 & N2 & N3 & N4).
    apply Finite.Injective_map_NoDup_in.
    + intros x y Hx Hy. apply (decode_generated x y Hx Hy).
    + apply NoDup_product4; assumption.
  - rewrite length_map, length_product4, !Nat.mul_assoc.
    change (List.length archs) with 108.
    change (List.length vendors) with 16.
    change (List.length oses) with 40.
    change (List.length envs) with 37.
    reflexivity.
Qed.

End GeneratorFacts.

(** * More on the scheduler: the counters, short runs, spawn failures *)

Section CounterFacts.

Import Scheduler.

Variable toolchain : string -> option Probe.completed.
Variable exceeds : nat -> nat -> bool.
Variable cap : nat.








End CounterFacts.


(** A run of [main]'s cap on 34 triples, every wait of the loop released by
    one task: two probes are counted, the last wait sees 32 tasks done, and
    the 31 of them that were created before the last rebinding of [tasks]
    are still in the set at the end. *)
Example two_counted_of_thirty_four :
  match Scheduler.schedule
          (fun _ => Some (Probe.Completed [] [] (Some 1%Z)))
          (fun _ _ => false) Scheduler.TASK_COUNT (repeat "x"%string 34) [] with
  | Scheduler.Ok st =>
      (Scheduler.i st, List.length (Scheduler.tasks st),
       List.length (Scheduler.finished (Scheduler.history st)))
      = (2, 31, 34)
  | _ => False
  end.
Proof. vm_compute. reflexivity. Qed.

Section ShortRuns.

Import Scheduler.

Variable toolchain : string -> option Probe.completed.
Variable exceeds : nat -> nat -> bool.
Variable cap : nat.

(** While there is room no wait takes place: the tasks are created one
    after the other. *)
Lemma feed_no_wait prefix : forall rest sched st,
  List.length (tasks st) + List.length prefix <= cap ->
  feed toolchain exceeds cap (prefix ++ rest) sched st
  = feed toolchain exceeds cap rest sched
      (fold_left (fun s tr => launch tr s) prefix st).
Proof.
  induction prefix as [|tr prefix IH]; intros rest sched st H; [reflexivity|].
  simpl in H. cbn [app feed make_room fold_left].
  assert (E : Nat.leb cap (List.length (tasks st)) = false)
    by (apply Nat.leb_gt; lia).
  rewrite E. apply IH. simpl. lia.
Qed.

Lemma launches_state triples : forall st,
  let st' := fold_left (fun s tr => launch tr s) triples st in
  tasks st' = rev (first_tasks (created st) (i st) triples) ++ tasks st
  /\ history st'
     = history st ++ map Launch (first_tasks (created st) (i st) triples)
  /\ i st' = i st /\ l st' = l st
  /\ created st' = created st + List.length triples.
Proof.
  induction triples as [|tr triples IH]; intros st; cbn [fold_left first_tasks].
  - cbn [rev app map List.length]. rewrite app_nil_r, Nat.add_0_r. repeat split.
  - destruct (IH (launch tr st)) as (Ht & Hh & Hi & Hl & Hc).
    cbv zeta. rewrite Ht, Hh, Hi, Hl, Hc, history_launch.
    unfold launch. cbn [tasks i l created rev map List.length].
    rewrite <- !app_assoc. cbn [app]. repeat split. lia.
Qed.

Lemma length_first_tasks triples : forall n seen,
  List.length (first_tasks n seen triples) = List.length triples.
Proof. induction triples; intros; simpl; auto. Qed.

Lemma launched_Launch ts : launched (map Launch ts) = ts.
Proof. induction ts; simpl; congruence. Qed.

Lemma finished_Launch ts : finished (map Launch ts) = [].
Proof. induction ts; simpl; auto. Qed.

Lemma drain_ok st :
  tasks st <> [] ->
  drain st = Ok (State (stale st) (i st) (l st) (created st)
                       (rev (map Done (tasks st)) ++ trace st)).
Proof.
  unfold drain. destruct (tasks st) as [|t ts]; [congruence | reflexivity].
Qed.

(** A run of no more triples than the cap never waits before the last
    wait, whatever the toolchain does: the tasks are created in a row, all
    with the count 0, the last wait sees them done, and the run ends
    without exception, also when no child process could be spawned. *)
Theorem short_run_never_waits (triples : list string)
    (sched : list completion) :
  triples <> [] ->
  List.length triples <= cap ->
  exists st,
    schedule toolchain exceeds cap triples sched = Ok st
    /\ i st = 0
    /\ history st
       = map Launch (first_tasks 0 0 triples)
         ++ map Done (rev (first_tasks 0 0 triples)).
Proof.
  intros Hne Hlen. unfold schedule.
  replace (feed toolchain exceeds cap triples sched init)
    with (feed toolchain exceeds cap (triples ++ []) sched init)
    by (rewrite app_nil_r; reflexivity).
  rewrite feed_no_wait by (simpl; lia). cbn [feed].
  destruct (launches_state triples init) as (Ht & Hh & Hi & _).
  cbv zeta in *. cbn [init tasks i created history trace rev app] in Ht, Hh, Hi.
  rewrite app_nil_r in Ht.
  set (st := fold_left (fun s tr => launch tr s) triples init) in *.
  rewrite drain_ok.
  - eexists. split; [reflexivity|]. split; [exact Hi|].
    rewrite (history_wait st (tasks st) (stale st)), Hh, Ht. reflexivity.
  - intros T. apply (f_equal (@List.length task)) in Ht.
    rewrite T, length_rev, length_first_tasks in Ht.
    destruct triples; [congruence | discriminate Ht].
Qed.

(** The first wait of a run of more triples than the cap, when no child
    process can be spawned: [await task] raises. *)
Lemma first_wait_raises (triples : list string) (sched : list completion) :
  (forall tr, toolchain tr = None) ->
  1 <= cap ->
  cap < List.length triples ->
  exists t st,
    schedule toolchain exceeds cap triples sched = Raise (SpawnError t) st
    /\ In t (first_tasks 0 0 (firstn cap triples))
    /\ launched (history st) = first_tasks 0 0 (firstn cap triples)
    /\ i st = 0.
Proof.
  intros Hnone Hcap Hlen. unfold schedule.
  replace (feed toolchain exceeds cap triples sched init)
    with (feed toolchain exceeds cap (firstn cap triples ++ skipn cap triples)
               sched init)
    by (rewrite firstn_skipn; reflexivity).
  assert (Lf : List.length (firstn cap triples) = cap)
    by (rewrite length_firstn; lia).
  rewrite feed_no_wait by (simpl; lia).
  destruct (launches_state (firstn cap triples) init) as (Ht & Hh & Hi & _).
  cbv zeta in *. cbn [init tasks i created history trace rev app] in Ht, Hh, Hi.
  rewrite app_nil_r in Ht.
  set (ts := first_tasks 0 0 (firstn cap triples)) in *.
  set (st := fold_left (fun s tr => launch tr s) (firstn cap triples) init) in *.
  destruct (skipn cap triples) as [|tr rest] eqn:Sk.
  { apply (f_equal (@List.length string)) in Sk. rewrite length_skipn in Sk.
    simpl in Sk. lia. }
  assert (Lt : List.length (tasks st) = cap).
  { rewrite Ht, length_rev. unfold ts. rewrite length_first_tasks. exact Lf. }
  cbn [feed make_room].
  assert (E : Nat.leb cap (List.length (tasks st)) = true)
    by (apply Nat.leb_le; lia).
  rewrite E. destruct (tasks st) as [|t0 ts0] eqn:T; [simpl in Lt; lia|].
  rewrite <- T.
  destruct (wait_first_completed _ (tasks st)) as [done pending] eqn:W.
  apply wait_first_completed_spec in W as [P Hd].
  destruct done as [|t done]; [exfalso; apply Hd; [rewrite T|]; congruence|].
  cbn [collect]. rewrite Hnone.
  exists t. eexists. split; [reflexivity|]. split; [|split].
  - apply in_rev. rewrite <- Ht, <- T.
    apply (Permutation_in _ P). left. reflexivity.
  - rewrite history_wait, Hh, launched_app, launched_Launch, launched_Done.
    apply app_nil_r.
  - exact Hi.
Qed.

(** When the toolchain cannot be spawned and there are more triples than
    the cap, the run raises the exception of a task at the first wait: the
    tasks of the first [cap] triples were created, no other, and nothing
    was counted. *)
Theorem unspawnable_toolchain_raises (triples : list string)
    (sched : list completion) :
  (forall tr, toolchain tr = None) ->
  1 <= cap ->
  cap < List.length triples ->
  exists t st,
    schedule toolchain exceeds cap triples sched = Raise (SpawnError t) st
    /\ In t (first_tasks 0 0 (firstn cap triples))
    /\ launched (history st) = first_tasks 0 0 (firstn cap triples)
    /\ i st = 0.
Proof. apply first_wait_raises. Qed.

End ShortRuns.

Lemma short_run_never_waits_witness :
  exists st,
    Scheduler.schedule (fun _ => None) (fun _ _ => false)
      Scheduler.TASK_COUNT ["a"; "b"]%string [] = Scheduler.Ok st
    /\ Scheduler.i st = 0
    /\ Scheduler.history st
       = map Scheduler.Launch (Scheduler.first_tasks 0 0 ["a"; "b"]%string)
         ++ map Scheduler.Done
              (rev (Scheduler.first_tasks 0 0 ["a"; "b"]%string)).
Proof.
  apply short_run_never_waits;
    [discriminate | unfold Scheduler.TASK_COUNT; simpl; lia].
Defined.

Lemma unspawnable_toolchain_raises_witness :
  exists t st,
    Scheduler.schedule (fun _ => None) (fun _ _ => false) 2
      ["a"; "b"; "c"]%string [] = Scheduler.Raise (Scheduler.SpawnError t) st
    /\ In t (Scheduler.first_tasks 0 0 (firstn 2 ["a"; "b"; "c"]%string))
    /\ Scheduler.launched (Scheduler.history st)
       = Scheduler.first_tasks 0 0 (firstn 2 ["a"; "b"; "c"]%string)
    /\ Scheduler.i st = 0.
Proof.
  apply unspawnable_toolchain_raises; [reflexivity | lia | simpl; lia].
Defined.

Lemma generate_triples_above_cap :
  Scheduler.TASK_COUNT < List.length Triples.generate_triples.
Proof.
  unfold Triples.generate_triples, Triples.generate_from, Scheduler.TASK_COUNT.
  rewrite length_map, length_product4.
  change (List.length Triples.archs) with 108.
  change (List.length Triples.vendors) with 16.
  change (List.length Triples.oses) with 40.
  change (List.length Triples.envs) with 37.
  lia.
Qed.

(** C4, as stated, fails on the triples of the generator when the child
    process of a probe cannot be spawned (no [clang++] to execute): the
    first wait of the loop hands the exception of a task to [main], which
    does not catch it. The run ends there, with the tasks of the first 32
    triples created, no result counted and all other triples never
    submitted. *)
Lemma spawn_failure_ends_run :
  exists t st,
    Scheduler.schedule (fun _ => None) (fun _ _ => false)
      Scheduler.TASK_COUNT Triples.generate_triples []
    = Scheduler.Raise (Scheduler.SpawnError t) st
    /\ List.length (Scheduler.launched (Scheduler.history st)) = 32
    /\ Scheduler.i st = 0
    /\ 32 < List.length Triples.generate_triples.
Proof.
  pose proof generate_triples_above_cap as L.
  destruct (first_wait_raises (fun _ => None) (fun _ _ => false)
              Scheduler.TASK_COUNT Triples.generate_triples []
              (fun _ => eq_refl) (ltac:(unfold Scheduler.TASK_COUNT; lia)) L)
    as (t & st & E & _ & Hl & Hi).
  exists t, st. split; [exact E|]. split; [|split; [exact Hi | exact L]].
  rewrite Hl, length_first_tasks, length_firstn.
  unfold Scheduler.TASK_COUNT in *. lia.
Qed.

Section TempfileFacts.

Import Scheduler.
Local Open Scope string_scope.

Lemma name_from_after_slash p : forall acc s,
  name_from acc (p ++ String "/" s) = name_from "" s.
Proof.
  induction p as [|c p IH]; intros acc s; simpl; [reflexivity|].
  destruct (Ascii.eqb c "/"); apply IH.
Qed.

Lemma name_from_plain s : forall acc,
  has_slash s = false -> name_from acc s = acc ++ s.
Proof.
  induction s as [|c s IH]; intros acc H; simpl.
  - symmetry. apply append_empty_r.
  - simpl in H. apply orb_false_iff in H as [Hc Hs].
    rewrite Hc, (IH _ Hs), append_assoc. reflexivity.
Qed.

Lemma has_slash_app a b : has_slash (a ++ b) = has_slash a || has_slash b.
Proof.
  induction a as [|c a IH]; simpl; [reflexivity|].
  rewrite IH, orb_assoc. reflexivity.
Qed.

(** The name of the temporary file is the text of the identifier and the
    suffix, without the directory. *)
Lemma path_name_tempfile uuid :
  has_slash uuid = false -> path_name (tempfile_path uuid) = uuid ++ ".c".
Proof.
  intros H. unfold path_name, tempfile_path.
  change ("/dev/shm/test/" ++ uuid ++ ".c")
    with ("/dev/shm/test" ++ String "/" (uuid ++ ".c")).
  rewrite name_from_after_slash, name_from_plain; [reflexivity|].
  rewrite has_slash_app, H. reflexivity.
Qed.

Lemma exists_file_write p text fs : exists_file p (write_text p text fs) = true.
Proof. unfold exists_file, write_text. simpl. rewrite String.eqb_refl. reflexivity. Qed.

Lemma exists_file_remove_same p fs : exists_file p (remove_file p fs) = false.
Proof.
  unfold exists_file, remove_file.
  induction fs as [|[q t] fs IH]; simpl; [reflexivity|].
  destruct (String.eqb q p) eqn:E; simpl; [exact IH|]. rewrite E. exact IH.
Qed.

Lemma exists_file_remove_other p q fs :
  p <> q -> exists_file p (remove_file q fs) = exists_file p fs.
Proof.
  intros Hne. unfold exists_file, remove_file.
  induction fs as [|[r t] fs IH]; simpl; [reflexivity|].
  destruct (String.eqb r q) eqn:E; simpl.
  - apply String.eqb_eq in E. subst r.
    assert (String.eqb q p = false) as -> by (apply String.eqb_neq; congruence).
    exact IH.
  - rewrite IH. reflexivity.
Qed.

(** Once the scheduler has drained, [main] removes the file of the name
    [<uuid>.c] in the working directory of the process, or raises when
    there is none: the temporary file is removed only when that is its
    path; in every other directory it survives the run, and a file of that
    name in the working directory is removed in its place. *)
Theorem main_removes_by_name
    (toolchain : string -> option Probe.completed)
    (exceeds : nat -> nat -> bool) (uuid cwd : string) (fs : filesystem)
    (triples : list string) (sched : list completion) (st : state) :
  has_slash uuid = false ->
  schedule toolchain exceeds TASK_COUNT triples sched = Ok st ->
  let temp := tempfile_path uuid in
  let target := resolve cwd (uuid ++ ".c") in
  let fs1 := write_text temp program_text fs in
  let r := main toolchain exceeds uuid cwd fs triples sched in
  r = (if exists_file target fs1
       then Returned (remove_file target fs1) st
       else Uncaught (FileNotFoundError target) fs1 st)
  /\ (target <> temp ->
      exists fs', final_fs r = Some fs'
        /\ exists_file temp fs' = true /\ exists_file target fs' = false)
  /\ (target = temp ->
      exists fs', r = Returned fs' st /\ exists_file temp fs' = false).
Proof.
  intros Hu Hs temp target fs1 r.
  assert (E : r = (if exists_file target fs1
                   then Returned (remove_file target fs1) st
                   else Uncaught (FileNotFoundError target) fs1 st)).
  { unfold r, main. rewrite Hs.
    rewrite (path_name_tempfile uuid Hu). unfold unlink.
    fold program_text. fold temp. fold fs1. fold target.
    destruct (exists_file target fs1); reflexivity. }
  split; [exact E|]. split.
  - intros Hne. rewrite E.
    destruct (exists_file target fs1) eqn:X; cbn [final_fs].
    + eexists. split; [reflexivity|]. split.
      * rewrite exists_file_remove_other by congruence.
        apply exists_file_write.
      * apply exists_file_remove_same.
    + eexists. split; [reflexivity|]. split; [apply exists_file_write | exact X].
  - intros Heq. rewrite E, Heq.
    unfold fs1. rewrite exists_file_write.
    eexists. split; [reflexivity | apply exists_file_remove_same].
Qed.

Lemma main_removes_by_name_witness :
  let toolchain := fun _ : string => Some (Probe.Completed [] [] (Some 1%Z)) in
  let uuid := "6fa459ea" in
  let other := [("/root/6fa459ea.c", "int x;")] in
  exists st fs',
    final_fs (main toolchain (fun _ _ => false) uuid "/root" other ["a"] [])
    = Some fs'
    /\ schedule toolchain (fun _ _ => false) TASK_COUNT ["a"] [] = Ok st
    /\ exists_file (tempfile_path uuid) fs' = true
    /\ exists_file "/root/6fa459ea.c" fs' = false.
Proof.
  intros toolchain uuid other.
  eexists.
  destruct (proj1 (proj2 (main_removes_by_name toolchain (fun _ _ => false)
              uuid "/root" other ["a"] [] _ eq_refl eq_refl)))
    as (fs' & F & T & X).
  - discriminate.
  - exists fs'. split; [exact F|]. split; [reflexivity|]. split; assumption.
Defined.

End TempfileFacts.

(** * More on the analyzer: the order of the report, the frames *)

Section ReportFacts.

Import Probe Log Analyzer.

Lemma existsb_key_In k keys : existsb (key_eqb k) keys = true <-> In k keys.
Proof.
  rewrite existsb_exists. split.
  - intros (x & Hx & E). apply key_eqb_eq in E. subst x. exact Hx.
  - intros H. exists k. split; [exact H | apply key_eqb_refl].
Qed.

(** Adding the keys one after the other gives the distinct keys, each at
    its first place. *)
Lemma fold_add_key ks : fold_left add_key ks [] = first_seen ks.
Proof.
  unfold first_seen. induction ks as [|k ks IH] using rev_ind; [reflexivity|].
  rewrite fold_left_app, IH, rev_app_distr. cbn [fold_left rev app nodup].
  unfold add_key. destruct (in_dec key_dec k (rev ks)) as [Hin | Hnin].
  - assert (E : existsb (key_eqb k) (rev (nodup key_dec (rev ks))) = true).
    { apply existsb_key_In. rewrite <- in_rev. apply nodup_In. exact Hin. }
    rewrite E. reflexivity.
  - assert (E : existsb (key_eqb k) (rev (nodup key_dec (rev ks))) = false).
    { apply not_true_is_false. rewrite existsb_key_In, <- in_rev, nodup_In.
      exact Hnin. }
    rewrite E. reflexivity.
Qed.

Variable literal_eval : str -> option bytes.

Lemma loop_keys chunks : forall d0 d,
  loop literal_eval chunks d0 = Ok d ->
  map fst d
  = fold_left add_key
      (map (fun e => strace_of (snd e)) (entries literal_eval chunks))
      (map fst d0).
Proof.
  induction chunks as [|chunk chunks IH]; intros d0 d H.
  - injection H as <-. reflexivity.
  - destruct chunk as [|result [|output_string [|extra chunk]]];
      try discriminate H.
    cbn [loop] in H. cbn [entries].
    destruct (literal_eval output_string) as [text|]; [|discriminate H].
    rewrite (IH _ _ H), setitem_keys. reflexivity.
Qed.

Lemma getitem_In k v d :
  NoDup (map fst d) -> In (k, v) d -> getitem k d = Some v.
Proof.
  induction d as [|[k' v'] d IH]; intros N H; [destruct H|].
  simpl in N. inversion N as [|? ? Hnin N']; subst. simpl.
  destruct H as [E | H].
  - injection E as -> ->. rewrite key_eqb_refl. reflexivity.
  - destruct (key_eqb k k') eqn:E.
    + apply key_eqb_eq in E. subst k'. exfalso. apply Hnin.
      apply (in_map fst) in H. exact H.
    + apply IH; assumption.
Qed.

Lemma report_keys d : map fst (report d) = map fst d.
Proof. unfold report. rewrite map_map. apply map_ext. reflexivity. Qed.

End ReportFacts.

Section ReportClaims.

Import Probe Log Analyzer.

(** The report of the analyzer lists every distinct stack trace of the log
    once, in the order of their first appearance, each with the first line
    of the last record that has it. *)
Theorem report_in_order_of_first_appearance
    (literal_eval : str -> option bytes) (results : str) (d : dict) :
  main literal_eval results = Ok d ->
  map fst (report d)
  = first_seen (map (fun e => strace_of (snd e)) (records literal_eval results))
  /\ forall k result,
       In (k, result) (report d) ->
       exists text,
         last_with k (records literal_eval results) = Some (result, text).
Proof.
  intros H. unfold main in H. split.
  - rewrite report_keys, (loop_keys literal_eval _ _ _ H).
    apply fold_add_key.
  - intros k result Hin. unfold report in Hin.
    apply in_map_iff in Hin as ([k' [result' text]] & E & Hin).
    cbn [fst snd] in E. injection E as -> ->.
    exists text. apply loop_ok in H as (_ & N & G).
    pose proof (getitem_In k (result, text) d (N (NoDup_nil _)) Hin) as Hg.
    rewrite G in Hg. unfold records.
    destruct (last_with k _); [exact Hg | discriminate Hg].
Qed.

Lemma report_in_order_of_first_appearance_witness :
  let results :=
    (of_string "t1" ++ [10%N] ++ bytes_repr (b "#0 0x1 g") ++ [10%N]
     ++ of_string "t2" ++ [10%N] ++ bytes_repr (b "no frame") ++ [10%N]
     ++ of_string "t3" ++ [10%N] ++ bytes_repr (b "#4 0x2 g") ++ [10%N])%list in
  exists d, main Log.literal_eval results = Ok d
    /\ map fst (report d) = [[b "g"]; []].
Proof.
  intros results. eexists. split; [vm_compute; reflexivity|].
  apply (report_in_order_of_first_appearance Log.literal_eval results).
  vm_compute. reflexivity.
Defined.

End ReportClaims.

Section FrameFacts.

Import Probe Log Analyzer.
Local Open Scope string_scope.
Local Open Scope list_scope.

Lemma run_length cls l : run cls l -> 1 <= List.length l.
Proof. intros [Hne _]. destruct l; [congruence | simpl; lia]. Qed.

Lemma frame_at_length s symbol rest :
  frame_at s symbol rest -> 8 + List.length rest <= List.length s.
Proof.
  intros (number & ws1 & address & ws2 & -> & Hn & Hw1 & Ha & Hw2 & Hs & _).
  apply run_length in Hn, Hw1, Ha, Hw2, Hs.
  simpl. rewrite !length_app. simpl. rewrite !length_app. lia.
Qed.

Lemma no_frame_without_mark c s :
  c <> x23 -> forall symbol rest, ~ frame_at (c :: s) symbol rest.
Proof.
  intros Hc symbol rest (number & ws1 & address & ws2 & E & _).
  injection E as E _. contradiction.
Qed.

(** Text without the mark [#] before a diagnostic adds nothing to its
    stack trace. *)
Theorem strace_of_skips_unmarked (pre s : bytes) :
  Forall (fun c => c <> x23) pre ->
  strace_of (pre ++ s) = strace_of s.
Proof.
  intros H. induction H as [|c pre Hc H IH]; [reflexivity|].
  simpl app. rewrite strace_of_no_frame; [exact IH|].
  apply no_frame_without_mark, Hc.
Qed.

Lemma strace_of_skips_unmarked_witness :
  strace_of (b "Stack dump: " ++ b "#0 0x1 f") = strace_of (b "#0 0x1 f").
Proof.
  apply strace_of_skips_unmarked. repeat constructor; discriminate.
Defined.

Lemma strace_of_bounded n : forall s,
  List.length s <= n ->
  Forall (run is_symbol) (strace_of s)
  /\ 8 * List.length (strace_of s) <= List.length s.
Proof.
  induction n as [|n IH]; intros s Hlen.
  - destruct s; [|simpl in Hlen; lia]. split; [constructor | simpl; lia].
  - destruct s as [|c s']; [split; [constructor | simpl; lia]|].
    destruct (match_here STACK_TRACE_RE [] (c :: s')) as [[groups rest]|] eqn:M.
    + apply match_here_frame in M as (symbol & _ & F).
      pose proof (frame_at_length _ _ _ F) as L.
      rewrite (strace_of_frame _ _ _ F).
      destruct (IH rest) as [IHf IHl]; [simpl in Hlen, L; lia|].
      split.
      * constructor; [|exact IHf].
        destruct F as (? & ? & ? & ? & _ & _ & _ & _ & _ & Hs & _). exact Hs.
      * simpl List.length in *. lia.
    + rewrite strace_of_no_frame.
      * destruct (IH s') as [IHf IHl]; [simpl in Hlen; lia|].
        split; [exact IHf | simpl List.length; lia].
      * intros symbol rest F. apply frame_match_here in F. congruence.
Qed.

(** Every symbol of a stack trace is a run of one symbol character at
    least, and a text holds at most one frame for every eight bytes. *)
Theorem strace_of_symbols (text : bytes) :
  Forall (run is_symbol) (strace_of text)
  /\ 8 * List.length (strace_of text) <= List.length text.
Proof. apply (strace_of_bounded (List.length text)). lia. Qed.

End FrameFacts.

(** * From the prober to the analyzer: what is printed is read back *)

Section ConsoleFacts.

Import Probe Log Analyzer Console.
Local Open Scope string_scope.
Local Open Scope list_scope.

Lemma of_string_app a c : of_string (a ++ c)%string = of_string a ++ of_string c.
Proof.
  unfold of_string. induction a as [|x a IH]; simpl; [reflexivity|].
  f_equal. exact IH.
Qed.

Lemma digits_no_linebreak u :
  forallb (fun c => negb (is_linebreak c))
          (of_string (NilEmpty.string_of_uint u)) = true.
Proof. induction u; simpl; auto. Qed.

Lemma decimal_no_linebreak n :
  forallb (fun c => negb (is_linebreak c)) (of_string (decimal n)) = true.
Proof.
  unfold decimal, NilZero.string_of_uint.
  destruct (Nat.to_uint n); try apply digits_no_linebreak. reflexivity.
Qed.

Lemma error_header_no_linebreak triple i :
  forallb (fun c => negb (is_linebreak c)) (of_string triple) = true ->
  forallb (fun c => negb (is_linebreak c)) (error_header triple i) = true.
Proof.
  intros H. unfold error_header.
  rewrite !of_string_app, !forallb_app, decimal_no_linebreak, H. reflexivity.
Qed.

(** What a probe prints is nothing, or the two lines of its record. *)
Lemma check_triple_lines res triple i rest :
  forallb (fun c => negb (is_linebreak c)) (of_string triple) = true ->
  splitlines (check_triple res triple i ++ rest)
  = flat_map (fun r => [fst r; bytes_repr (snd r)]) (record_of res triple i)
    ++ splitlines rest.
Proof.
  intros H. unfold check_triple, record_of, classify, check_valid_triple.
  destruct (bytes_in sentinel (stdout res) || bytes_in sentinel (stderr res))
    eqn:E.
  - assert (T : payload_truthy (PBytes (stdout res ++ stderr res)) = true).
    { apply bytes_in_sentinel_nonempty, sentinel_in_stream_in_concat.
      apply orb_true_iff, E. }
    unfold outcome_of. rewrite T. cbn [payload_text payload_bytes flat_map fst snd].
    unfold print. rewrite <- !app_assoc. cbn [app].
    rewrite (splitlines_line _ _ (error_header_no_linebreak triple i H)).
    rewrite (splitlines_line _ _ (bytes_repr_no_linebreak _)).
    reflexivity.
  - cbn [payload_truthy Triples.truthy outcome_of].
    destruct (returncode_is_zero (returncode res)); reflexivity.
Qed.

Lemma chunked2_records (rs : list (str * bytes)) lines :
  chunked2 (flat_map (fun r => [fst r; bytes_repr (snd r)]) rs ++ lines)
  = map (fun r => [fst r; bytes_repr (snd r)]) rs ++ chunked2 lines.
Proof. induction rs as [|r rs IH]; simpl; [reflexivity|]. rewrite IH. reflexivity. Qed.

Lemma entries_records (rs : list (str * bytes)) chunks :
  entries Log.literal_eval
    (map (fun r => [fst r; bytes_repr (snd r)]) rs ++ chunks)
  = rs ++ entries Log.literal_eval chunks.
Proof.
  induction rs as [|[h diag] rs IH]; [reflexivity|].
  cbn [map app entries fst snd]. rewrite literal_eval_bytes_repr, IH.
  reflexivity.
Qed.

Lemma records_well_formed (rs : list (str * bytes)) :
  Forall (well_formed Log.literal_eval)
         (map (fun r => [fst r; bytes_repr (snd r)]) rs).
Proof.
  apply Forall_forall. intros chunk H.
  apply in_map_iff in H as ([h diag] & <- & _).
  exists h, (bytes_repr diag), diag. split; [reflexivity|].
  apply literal_eval_bytes_repr.
Qed.

Lemma console_chunks (probes : list (completed * string * nat)) :
  Forall (fun p => forallb (fun c => negb (is_linebreak c))
                           (of_string (snd (fst p))) = true) probes ->
  chunked2 (splitlines
    (flat_map (fun p => check_triple (fst (fst p)) (snd (fst p)) (snd p)) probes))
  = map (fun r => [fst r; bytes_repr (snd r)])
      (flat_map (fun p => record_of (fst (fst p)) (snd (fst p)) (snd p)) probes).
Proof.
  intros H. induction H as [|[[res triple] i] probes Hp H IH]; [reflexivity|].
  cbn [flat_map fst snd] in *.
  rewrite (check_triple_lines res triple i _ Hp), chunked2_records, IH, map_app.
  reflexivity.
Qed.

(** What any number of probes print (the progress lines of [main] aside),
    when their triples hold no line boundary, is a log the analyzer reads
    to the end: its records are the header and the diagnostic of every
    crashed probe, in the order printed, and nothing of the other
    probes. *)
Theorem crash_reports_read_back (probes : list (completed * string * nat)) :
  Forall (fun p => forallb (fun c => negb (is_linebreak c))
                           (of_string (snd (fst p))) = true) probes ->
  let console :=
    flat_map (fun p => check_triple (fst (fst p)) (snd (fst p)) (snd p)) probes in
  records Log.literal_eval console
  = flat_map (fun p => record_of (fst (fst p)) (snd (fst p)) (snd p)) probes
  /\ exists d, Analyzer.main Log.literal_eval console = Analyzer.Ok d.
Proof.
  intros H console. unfold records, Analyzer.main. unfold console.
  rewrite (console_chunks probes H). split.
  - rewrite <- (app_nil_r (map _ _)), entries_records. apply app_nil_r.
  - apply loop_well_formed, records_well_formed.
Qed.

Lemma crash_reports_read_back_witness :
  let crash := Completed [] (b "PLEASE submit a bug report" ++ [x0a]
                             ++ b "#0 0x1 f") (Some 1%Z) in
  let probes := [(Completed [] [] (Some 0%Z), "x86_64-pc-linux-gnu", 0);
                 (crash, "i386-apple-windows-eabi", 7)] in
  let console :=
    flat_map (fun p => check_triple (fst (fst p)) (snd (fst p)) (snd p)) probes in
  records Log.literal_eval console
  = [(of_string "Error checking triple (#7) `i386-apple-windows-eabi`:",
      b "PLEASE submit a bug report" ++ [x0a] ++ b "#0 0x1 f")]
  /\ exists d, Analyzer.main Log.literal_eval console = Analyzer.Ok d.
Proof.
  intros crash probes console.
  apply (crash_reports_read_back probes). repeat constructor.
Defined.

End ConsoleFacts.

(** * Draining a pipe, and the version test of [crash.py] *)

Section StreamFacts.

Import Probe.
Local Open Scope list_scope.

Lemma read_stream_from_app chunks : forall out rest,
  Forall (fun data => data <> []) chunks ->
  read_stream_from out (chunks ++ rest)
  = read_stream_from (out ++ List.concat chunks) rest.
Proof.
  induction chunks as [|data chunks IH]; intros out rest H.
  - simpl. rewrite app_nil_r. reflexivity.
  - inversion H as [|? ? Hne H']; subst.
    destruct data as [|x data]; [congruence|].
    cbn [app read_stream_from List.concat].
    rewrite (IH _ _ H'), <- app_assoc. reflexivity.
Qed.

(** However the bytes of a stream are cut into reads, [read_stream]
    returns all of them up to the end of file, and nothing of what might
    come after the first empty read. *)
Theorem read_stream_whole (chunks later : list bytes) :
  Forall (fun data => data <> []) chunks ->
  read_stream chunks = List.concat chunks
  /\ read_stream (chunks ++ [] :: later) = List.concat chunks.
Proof.
  intros H. unfold read_stream. split.
  - pose proof (read_stream_from_app chunks [] [] H) as E.
    rewrite app_nil_r in E. exact E.
  - exact (read_stream_from_app chunks [] ([] :: later) H).
Qed.

Lemma read_stream_whole_witness :
  read_stream [b "PLEA"; b "SE"] = b "PLEASE"
  /\ read_stream ([b "PLEA"; b "SE"] ++ [] :: [b "lost"]) = b "PLEASE".
Proof.
  apply (read_stream_whole [b "PLEA"; b "SE"] [b "lost"]).
  repeat constructor; discriminate.
Defined.

End StreamFacts.

Section VersionFacts.

Import Probe Crash.
Local Open Scope list_scope.

Lemma dot_spec c : dot c = true <-> c <> x0a.
Proof.
  unfold dot. rewrite negb_true_iff. split.
  - intros H E. subst c. discriminate H.
  - intros H. destruct (Byte.eqb c x0a) eqn:E; [|reflexivity].
    apply byte_eqb_eq in E. contradiction.
Qed.

Lemma version_here_spec s :
  version_here s = true
  <-> exists c3 c5 post,
        s = [x31; x35; c3; x30; c5; x30] ++ post /\ c3 <> x0a /\ c5 <> x0a.
Proof.
  split.
  - destruct s as [|c1 [|c2 [|c3 [|c4 [|c5 [|c6 post]]]]]]; try discriminate.
    cbn [version_here]. rewrite !andb_true_iff, !byte_eqb_eq, !dot_spec.
    intros (((((-> & ->) & H3) & ->) & H5) & ->).
    exists c3, c5, post. auto.
  - intros (c3 & c5 & post & -> & H3 & H5).
    cbn [app version_here]. rewrite !andb_true_iff, !byte_eqb_eq, !dot_spec.
    auto 10.
Qed.

(** The version test of [crash.py] passes exactly when the output of
    [clang --version] holds [15], any byte but a line feed, [0], any byte
    but a line feed and [0] in a row: the dots of the pattern stand for any
    such byte, not only for a dot. *)
Theorem version_found_spec (version : bytes) :
  version_found version = true
  <-> exists pre c3 c5 post,
        version = pre ++ [x31; x35; c3; x30; c5; x30] ++ post
        /\ c3 <> x0a /\ c5 <> x0a.
Proof.
  induction version as [|c version IH]; cbn [version_found];
    rewrite orb_true_iff, version_here_spec.
  - split.
    + intros [(c3 & c5 & post & E & _)|H]; discriminate.
    + intros (pre & c3 & c5 & post & E & _). destruct pre; discriminate.
  - rewrite IH. split.
    + intros [(c3 & c5 & post & E & H)|(pre & c3 & c5 & post & E & H)].
      * exists [], c3, c5, post. split; [exact E | exact H].
      * exists (c :: pre), c3, c5, post. rewrite E. split; [reflexivity | exact H].
    + intros (pre & c3 & c5 & post & E & H). destruct pre as [|x pre].
      * left. exists c3, c5, post. split; [exact E | exact H].
      * right. injection E as _ E. exists pre, c3, c5, post.
        split; [exact E | exact H].
Qed.

Lemma version_found_spec_witness :
  version_found (b "clang version 15.0.0") = true
  /\ version_found (b "clang version 3.15x0y0") = true.
Proof.
  split; apply version_found_spec.
  - exists (b "clang version "), "."%byte, "."%byte, [].
    repeat split; discriminate.
  - exists (b "clang version 3."), "x"%byte, "y"%byte, [].
    repeat split; discriminate.
Defined.

End VersionFacts.
